(** * Modulo Fibonacci: orbit enumeration over a bit-packed visited map

    A shallow embedding of [modfibo.py]: the [VisitedMap] bitmap with its
    test-and-set [visit] and its generator [iterate_free_pairs], the
    generator [modulo_fibonacci], [group_by_length] and [Alphabet.dump].

    Python integers are [Z]; a [bytearray] is a [list Z] of values in
    [0, 256); generators are state machines resumed against the current
    state of the object they close over; exceptions are a result type. *)

From stdpp Require Import base tactics option list numbers strings sorting.

Local Open Scope Z_scope.

(** ** Exceptions and results *)

Inductive exn : Type :=
  | ValueError
  | IndexError
  | ZeroDivisionError.

(** [OutOfFuel] is not a Python outcome: the two unbounded loops (the
    [while] of [modulo_fibonacci] and the draining of a generator) are
    run with a bound, and the theorems show it is never reached. *)
Inductive res (A : Type) : Type :=
  | Ok (a : A)
  | Raise (e : exn)
  | OutOfFuel.
Arguments Ok {A} a.
Arguments Raise {A} e.
Arguments OutOfFuel {A}.

Global Instance res_ret : MRet res := fun A a => Ok a.
Global Instance res_bind : MBind res := fun A B f m =>
  match m with
  | Ok a => f a
  | Raise e => Raise e
  | OutOfFuel => OutOfFuel
  end.

(** ** Python sequence indexing *)

(** [l[i]]: a negative index counts from the end, anything outside
    [-len, len) raises [IndexError]. *)
Definition py_norm {A} (l : list A) (i : Z) : res nat :=
  let n := Z.of_nat (length l) in
  let j := if i <? 0 then i + n else i in
  if (0 <=? j) && (j <? n) then Ok (Z.to_nat j) else Raise IndexError.

Definition py_index {A} (l : list A) (i : Z) : res A :=
  j ← py_norm l i;
  match l !! j with
  | Some x => Ok x
  | None => Raise IndexError
  end.

(** [b[i] = v] on a bytearray: the index is checked first, then the value
    must be in [range(256)]. *)
Definition bytearray_setitem (b : list Z) (i : Z) (v : Z) : res (list Z) :=
  j ← py_norm b i;
  if (0 <=? v) && (v <? 256) then Ok (<[j := v]> b) else Raise ValueError.

(** ** class VisitedMap *)

Module VisitedMap.

Record t : Type := mk { side : Z; map : list Z }.

(** [__init__]: [math.ceil(side * side / 8)] is taken over the integers,
    [(side * side + 7) // 8]; the two agree as long as the float quotient
    is exact, that is for [side * side] below [2 ^ 53]. *)
Definition new (side0 : Z) : t :=
  {| side := Z.abs side0;
     map := replicate (Z.to_nat ((side0 * side0 + 7) / 8)) 0 |}.

(** [visit]: the [try] computes the value to return, the [finally]
    stores the byte with the bit set (the augmented assignment reads the
    same byte again). A failing index fails both, with [IndexError]. *)
Definition visit (self : t) (n1 n2 : Z) : res (bool * t) :=
  let pos := n1 * side self + n2 in
  let byte_pos := pos / 8 in
  let bit := Z.shiftl 1 (pos mod 8) in
  byte ← py_index (map self) byte_pos;
  map' ← bytearray_setitem (map self) byte_pos (Z.lor byte bit);
  Ok (negb (Z.land byte bit =? 0), {| side := side self; map := map' |}).

(** [enumerate((1, 2, 4, 8, 16, 32, 64, 128))] *)
Definition BITS : list (Z * Z) :=
  [(0, 1); (1, 2); (2, 4); (3, 8); (4, 16); (5, 32); (6, 64); (7, 128)].

(** The generator [iterate_free_pairs]. Its frame, when suspended at the
    [yield], holds the current [byte_pos], what is left of the
    [enumerate] and what is left of the [range]; the local [byte] is
    dead there, since the statement after the [yield] reloads it. *)
Inductive scanner : Type :=
  | Fresh
  | Suspended (byte_pos : Z) (bits : list (Z * Z)) (bytes : list Z)
  | Finished.

Inductive pulled : Type :=
  | Yield (p : Z * Z) (it : scanner)
  | Stop.

Inductive inner : Type :=
  | Yielded (p : Z * Z) (rest : list (Z * Z))
  | Returned
  | Exhausted.

(** The inner [for] over the bits of one byte, with the local [byte]. *)
Fixpoint scan_bits (self_side byte_pos byte : Z) (bits : list (Z * Z))
  : res inner :=
  match bits with
  | [] => Ok Exhausted
  | (bit_pos, bit) :: rest =>
      if Z.land byte bit =? 0 then
        let pos := byte_pos * 8 + bit_pos in
        if self_side =? 0 then Raise ZeroDivisionError
        else
          let n1 := pos / self_side in
          if n1 >=? self_side then Ok Returned
          else Ok (Yielded (n1, pos mod self_side) rest)
      else scan_bits self_side byte_pos byte rest
  end.

(** The outer [for] over byte positions; each iteration loads [byte]
    from the map. *)
Fixpoint scan_bytes (self : t) (bytes : list Z) : res pulled :=
  match bytes with
  | [] => Ok Stop
  | byte_pos :: later =>
      byte ← py_index (map self) byte_pos;
      r ← scan_bits (side self) byte_pos byte BITS;
      match r with
      | Yielded p rest => Ok (Yield p (Suspended byte_pos rest later))
      | Returned => Ok Stop
      | Exhausted => scan_bytes self later
      end
  end.

(** [next(it)], against the current state [self] of the map. Resuming
    at the [yield] first executes [byte = self.map[byte_pos]]. *)
Definition resume (self : t) (it : scanner) : res pulled :=
  match it with
  | Fresh => scan_bytes self (seqZ 0 (Z.of_nat (length (map self))))
  | Suspended byte_pos bits later =>
      byte ← py_index (map self) byte_pos;
      r ← scan_bits (side self) byte_pos byte bits;
      match r with
      | Yielded p rest => Ok (Yield p (Suspended byte_pos rest later))
      | Returned => Ok Stop
      | Exhausted => scan_bytes self later
      end
  | Finished => Ok Stop
  end.

End VisitedMap.

(** ** def modulo_fibonacci *)

(** The [while] loop of one run. *)
Fixpoint walk (fuel : nat) (base : Z) (visited_map : VisitedMap.t)
    (n1 n2 : Z) (run : list Z) : res (VisitedMap.t * list Z) :=
  match fuel with
  | O => OutOfFuel
  | S fuel' =>
      '(seen, visited_map') ← VisitedMap.visit visited_map n1 n2;
      if (seen : bool) then Ok (visited_map', run)
      else if base =? 0 then Raise ZeroDivisionError
      else walk fuel' base visited_map' n2 ((n1 + n2) mod base) (run ++ [n2])
  end.

(** The generator [modulo_fibonacci]: not started, suspended at its
    [yield] (holding the map and the scanner it iterates), or finished. *)
Inductive gen : Type :=
  | Start (base : Z)
  | Loop (base : Z) (visited_map : VisitedMap.t) (it : VisitedMap.scanner)
  | Done.

(** What one [next] gives: a run, or the end. [start] is the pair the
    [for] statement bound for this run; the consumer receives [run] only,
    the pair is kept for the statements below. *)
Inductive event : Type :=
  | Emit (start : Z * Z) (run : list Z) (g : gen)
  | StopIteration.

Definition walk_fuel (visited_map : VisitedMap.t) : nat :=
  S (Z.to_nat (VisitedMap.side visited_map * VisitedMap.side visited_map)).

Definition loop (base : Z) (visited_map : VisitedMap.t)
    (it : VisitedMap.scanner) : res event :=
  p ← VisitedMap.resume visited_map it;
  match p with
  | VisitedMap.Stop => Ok StopIteration
  | VisitedMap.Yield (n1, n2) it' =>
      '(visited_map', run) ←
        walk (walk_fuel visited_map) base visited_map n1 n2 [];
      Ok (Emit (n1, n2) run (Loop base visited_map' it'))
  end.

Definition next (g : gen) : res event :=
  match g with
  | Start base =>
      if base <=? 0 then Raise ValueError
      else loop base (VisitedMap.new base) VisitedMap.Fresh
  | Loop base visited_map it => loop base visited_map it
  | Done => Ok StopIteration
  end.

(** Pulling from a generator until it stops. *)
Fixpoint drain (fuel : nat) (g : gen) : res (list ((Z * Z) * list Z)) :=
  match fuel with
  | O => OutOfFuel
  | S fuel' =>
      e ← next g;
      match e with
      | StopIteration => Ok []
      | Emit start run g' =>
          rest ← drain fuel' g';
          Ok ((start, run) :: rest)
      end
  end.

(** The iterations of the [for] loop of [modulo_fibonacci(base)], each
    with the pair it started from and the run it yielded. *)
Definition iterations (base : Z) : res (list ((Z * Z) * list Z)) :=
  drain (S (Z.to_nat (base * base))) (Start base).

(** [list(modulo_fibonacci(base))] *)
Definition modulo_fibonacci (base : Z) : res (list (list Z)) :=
  its ← iterations base; Ok (its.*2).

(** ** def group_by_length *)

Section Grouping.
Context {A : Type} (len : A -> nat).

(** [grouped[k].append(item)] on a [defaultdict(list)], kept in
    insertion order. *)
Fixpoint bucket_append (k : nat) (item : A) (grouped : list (nat * list A))
  : list (nat * list A) :=
  match grouped with
  | [] => [(k, [item])]
  | (k', items) :: rest =>
      if decide (k = k') then (k', items ++ [item]) :: rest
      else (k', items) :: bucket_append k item rest
  end.

Definition grouped_of (seq : list A) : list (nat * list A) :=
  foldl (fun grouped item => bucket_append (len item) item grouped) [] seq.

(** The order [sorted(..., reverse=True)] puts the items of a dict in:
    the keys are distinct, so only they are ever compared. *)
Definition key_ge (x y : nat * list A) : Prop := (y.1 <= x.1)%nat.

Global Instance key_ge_dec x y : Decision (key_ge x y).
Proof. unfold key_ge. apply _. Defined.

Definition group_by_length (seq : list A) : list (nat * list A) :=
  merge_sort key_ge (grouped_of seq).

End Grouping.

(** [{k: len(v) for k, v in grouped_runs.items()}] of [main] *)
Definition histogram {A} (grouped_runs : list (nat * list A))
  : list (nat * nat) :=
  (fun kv => (kv.1, length kv.2)) <$> grouped_runs.

(** ** The run objects *)

(** Every run yielded by [modulo_fibonacci] is a list object of its own;
    the consumers hold references to these objects. The heap maps a
    reference (the position in yield order) to the list's contents. *)
Abbreviation ref := nat.

Record world : Type := mkWorld { heap : list (list Z); stdout : list string }.

Definition len_in (h : list (list Z)) (r : ref) : nat := length (h !!! r).

(** [run.pop()] *)
Definition list_pop (h : list (list Z)) (r : ref) : res (Z * list (list Z)) :=
  match last (h !!! r) with
  | None => Raise IndexError
  | Some x => Ok (x, <[r := removelast (h !!! r)]> h)
  end.

(** ** class Alphabet *)

Module Alphabet.

(** [self.length] and [self.symbols]; [__init__], which computes them
    with floating-point logarithms and roots, is not modelled. *)
Record t : Type := mk { length : Z; symbols : list string }.

Section Dump.
(** The escape sequences of [colorama]. *)
Variables (BRIGHT MAGENTA GREEN YELLOW RESET_ALL : string).

Definition symbol (self : t) (i : Z) : res string :=
  py_index (symbols self) i.

(** [self.symbols[i] for i in run] *)
Fixpoint plain (self : t) (run : list Z) : res (list string) :=
  match run with
  | [] => Ok []
  | i :: rest =>
      s ← symbol self i;
      out ← plain self rest;
      Ok (s :: out)
  end.

(** The items of [zip(itertools.cycle(zebra), run)], flattened;
    [green] tells which colour of the cycle comes next. *)
Fixpoint zebra (self : t) (green : bool) (run : list Z)
  : res (list string) :=
  match run with
  | [] => Ok []
  | item :: rest =>
      s ← symbol self item;
      out ← zebra self (negb green) rest;
      Ok ((if green then GREEN else YELLOW) :: s :: out)
  end.

(** The body of the [for] loop of [dump], for the run object [r]. *)
Definition dump_run (self : t) (w : world) (r : ref) : res world :=
  '(x, h) ← list_pop (heap w) r;
  s ← symbol self x;
  body ← (if length self =? 1
          then out ← plain self (h !!! r); Ok (GREEN :: out)
          else zebra self true (h !!! r));
  let output := [BRIGHT; MAGENTA; s] ++ body ++ [RESET_ALL] in
  Ok {| heap := h;
        stdout := stdout w ++ [String.concat EmptyString output] |}.

Fixpoint dump (self : t) (w : world) (runs : list ref) : res world :=
  match runs with
  | [] => Ok w
  | r :: rest => w' ← dump_run self w r; dump self w' rest
  end.

End Dump.

End Alphabet.

(** ** def main, up to the call of [dump] *)

(** [grouped_runs = group_by_length(modulo_fibonacci(base))] followed by
    [Alphabet(base).dump(run for group in grouped_runs.values() for run in
    group)], for a valid [base] and with the alphabet given. The result
    holds [grouped_runs] and the world after the dump. *)
Definition main_dump (BRIGHT MAGENTA GREEN YELLOW RESET_ALL : string)
    (alphabet : Alphabet.t) (base : Z)
  : res (list (nat * list ref) * world) :=
  runs ← modulo_fibonacci base;
  let w := {| heap := runs; stdout := [] |} in
  let grouped_runs := group_by_length (len_in (heap w)) (seq 0 (length runs)) in
  w' ← Alphabet.dump BRIGHT MAGENTA GREEN YELLOW RESET_ALL alphabet w
         (concat (grouped_runs.*2));
  Ok (grouped_runs, w').

(** The escape sequences of [colorama] that [dump] writes, and the
    alphabet that [Alphabet(2)] builds (one character per value, the
    symbols ['0'] and ['1']). *)
Definition ESC : string := String (Ascii.ascii_of_nat 27) EmptyString.
Definition Style_BRIGHT : string := ESC +:+ "[1m".
Definition Fore_MAGENTA : string := ESC +:+ "[35m".
Definition Fore_GREEN : string := ESC +:+ "[32m".
Definition Fore_YELLOW : string := ESC +:+ "[33m".
Definition Style_RESET_ALL : string := ESC +:+ "[0m".

Definition alphabet2 : Alphabet.t := Alphabet.mk 1 ["0"; "1"]%string.

(** ** Vocabulary of the statements *)

(** The flat index of a pair in a map of the given side. *)
Definition flat (side : Z) (p : Z * Z) : Z := p.1 * side + p.2.

(** The bit of flat index [pos] in a bytearray. *)
Definition bit_at (m : list Z) (pos : Z) : bool :=
  Z.testbit (m !!! Z.to_nat (pos / 8)) (pos mod 8).

Definition in_range (base : Z) (p : Z * Z) : Prop :=
  (0 <= p.1 < base) /\ (0 <= p.2 < base).

Definition bytes_ok (m : list Z) : Prop := Forall (fun b => 0 <= b < 256) m.

(** The recurrence on state pairs, and the [k] states met from [p] on. *)
Definition step (base : Z) (p : Z * Z) : Z * Z := (p.2, (p.1 + p.2) mod base).

Fixpoint trajectory (base : Z) (k : nat) (p : Z * Z) : list (Z * Z) :=
  match k with
  | O => []
  | S k' => p :: trajectory base k' (step base p)
  end.

(** The [base * base] ordered pairs of residues. *)
Definition all_pairs (base : Z) : list (Z * Z) :=
  list_prod (seqZ 0 base) (seqZ 0 base).

(** The pairs that the iterations of the loop marked: for each iteration,
    as many states from its start as its run has elements. *)
Definition traversed (base : Z) (its : list ((Z * Z) * list Z))
  : list (Z * Z) :=
  its ≫= (fun it => trajectory base (length it.2) it.1).

(** What is left of [BITS] from bit [k] on. *)
Definition bits_from (k : Z) : list (Z * Z) :=
  (fun j => (j, 2 ^ j)) <$> seqZ k (8 - k).

(** [scanner_at L it c]: the scanner [it], started on a map of [L] bytes,
    tests flat index [c] next. *)
Inductive scanner_at (L : Z) : VisitedMap.scanner -> Z -> Prop :=
  | at_fresh : scanner_at L VisitedMap.Fresh 0
  | at_suspended (byte_pos k : Z) :
      0 <= byte_pos < L -> 0 <= k <= 8 ->
      scanner_at L
        (VisitedMap.Suspended byte_pos (bits_from k)
           (seqZ (byte_pos + 1) (L - (byte_pos + 1))))
        (byte_pos * 8 + k).

(** The pairs a scanner yields when it is pulled once per element of
    [stores], the map being in the state [stores !! i] at the [i]-th pull:
    between two pulls the consumer may have changed the map at will. *)
Fixpoint pulls (sd : Z) (it : VisitedMap.scanner) (stores : list (list Z))
  : list (Z * Z) :=
  match stores with
  | [] => []
  | m :: later =>
      match VisitedMap.resume (VisitedMap.mk sd m) it with
      | Ok (VisitedMap.Yield p it') => p :: pulls sd it' later
      | _ => []
      end
  end.

(** What a pull from a scanner that tests flat index [c] next must
    satisfy, on a map [m] of side [sd]: a yielded pair is in range and is
    the first unset bit from [c] on; the scan stops only when every pair
    from [c] on is set; it fails only on a map shorter than the one it
    was started on. *)
Definition pulled_spec (sd L : Z) (m : list Z) (c : Z)
    (r : res VisitedMap.pulled) : Prop :=
  match r with
  | Ok (VisitedMap.Yield p it') =>
      in_range sd p /\ c <= flat sd p /\ bit_at m (flat sd p) = false
      /\ (forall q, c <= q < flat sd p -> bit_at m q = true)
      /\ scanner_at L it' (flat sd p + 1)
  | Ok VisitedMap.Stop =>
      forall q, c <= q < sd * sd -> q < 8 * L -> bit_at m q = true
  | Raise _ => Z.of_nat (length m) < L
  | OutOfFuel => False
  end.

(** Successive calls of [visit] on one map, with what each returned. *)
Fixpoint visits (vm : VisitedMap.t) (ps : list (Z * Z))
  : res (list bool * VisitedMap.t) :=
  match ps with
  | [] => Ok ([], vm)
  | p :: rest =>
      '(seen, vm') ← VisitedMap.visit vm p.1 p.2;
      '(out, vm'') ← visits vm' rest;
      Ok (seen :: out, vm'')
  end.

(** For each pair of [ps], whether it occurs earlier in [ps] or in the
    history [H]. *)
Fixpoint seen_before (H : list (Z * Z)) (ps : list (Z * Z)) : list bool :=
  match ps with
  | [] => []
  | p :: rest => bool_decide (p ∈ H) :: seen_before (H ++ [p]) rest
  end.

(** The invariant of the enumeration: [V] lists, without repetition, the
    pairs marked so far, and the set bits of the map are exactly theirs. *)
Record visited_inv (base : Z) (vm : VisitedMap.t) (V : list (Z * Z))
  : Prop := {
  inv_side : VisitedMap.side vm = base;
  inv_len : Z.of_nat (length (VisitedMap.map vm)) = (base * base + 7) / 8;
  inv_bytes : bytes_ok (VisitedMap.map vm);
  inv_nodup : NoDup V;
  inv_range : forall p, p ∈ V -> in_range base p;
  inv_bits : forall p, in_range base p ->
      bit_at (VisitedMap.map vm) (flat base p) = true <-> p ∈ V
}.

(** Every pair of flat index below [c] is in [V]. *)
Definition covered (base : Z) (V : list (Z * Z)) (c : Z) : Prop :=
  forall p, in_range base p -> flat base p < c -> p ∈ V.

(** An iteration is well formed: it starts in range, its run is not empty
    and lists the second components of the states met from its start. *)
Definition run_of (base : Z) (it : (Z * Z) * list Z) : Prop :=
  in_range base it.1 /\ (0 < length it.2)%nat
  /\ it.2 = (trajectory base (length it.2) it.1).*2.

(** The bucket of key [k] in a grouping, empty when the key is absent. *)
Fixpoint bucket {A} (k : nat) (grouped : list (nat * list A)) : list A :=
  match grouped with
  | [] => []
  | (k', items) :: rest => if decide (k = k') then items else bucket k rest
  end.

(** The number of elements held by the buckets of a grouping, and the
    same count read off the histogram (length times number of runs). *)
Definition buckets_total {A} (grouped : list (nat * list (list A))) : nat :=
  sum_list ((fun kv => length (concat kv.2)) <$> grouped).

Definition histogram_total (h : list (nat * nat)) : nat :=
  sum_list ((fun kv => kv.1 * kv.2)%nat <$> h).

(** [list(self.iterate_free_pairs())]: the scanner drained on a map that
    nobody modifies meanwhile. *)
Fixpoint scan_all (fuel : nat) (self : VisitedMap.t)
    (it : VisitedMap.scanner) : res (list (Z * Z)) :=
  match fuel with
  | O => OutOfFuel
  | S fuel' =>
      p ← VisitedMap.resume self it;
      match p with
      | VisitedMap.Stop => Ok []
      | VisitedMap.Yield q it' =>
          rest ← scan_all fuel' self it';
          Ok (q :: rest)
      end
  end.

Definition free_pairs (self : VisitedMap.t) : res (list (Z * Z)) :=
  scan_all (S (8 * length (VisitedMap.map self))) self VisitedMap.Fresh.

(** [V] is closed under the recurrence. *)
Definition step_closed (base : Z) (V : list (Z * Z)) : Prop :=
  forall p, p ∈ V -> step base p ∈ V.

(** The values an alphabet has a symbol for. *)
Definition drawable (self : Alphabet.t) (x : Z) : Prop :=
  0 <= x < Z.of_nat (length (Alphabet.symbols self)).

(** Between the flat index [c] and the first pair of [ps], and between
    each pair of [ps] and the next, every bit is set in the map as it is
    at the pull that yields the later pair. *)
Fixpoint no_skip (sd c : Z) (ps : list (Z * Z)) (stores : list (list Z))
  : Prop :=
  match ps, stores with
  | p :: ps', m :: stores' =>
      (forall q, c <= q < flat sd p -> bit_at m q = true)
      /\ no_skip sd (flat sd p + 1) ps' stores'
  | _, _ => True
  end.

(** The pull that ends a run of [pulls]: the first pull that does not
    yield, with the map it saw; [None] when every pull yielded. *)
Fixpoint last_pull (sd : Z) (it : VisitedMap.scanner)
    (stores : list (list Z)) : option (res VisitedMap.pulled * list Z) :=
  match stores with
  | [] => None
  | m :: later =>
      match VisitedMap.resume (VisitedMap.mk sd m) it with
      | Ok (VisitedMap.Yield p it') => last_pull sd it' later
      | r => Some (r, m)
      end
  end.

(** The flat index a scanner tests next once it has yielded [ps], having
    started at [c]. *)
Fixpoint cursor_after (sd c : Z) (ps : list (Z * Z)) : Z :=
  match ps with
  | [] => c
  | p :: ps' => cursor_after sd (flat sd p + 1) ps'
  end.

(** * Properties *)

(** ** Bits *)

Lemma land_pow2 (byte k : Z) :
  0 <= k -> Z.land byte (2 ^ k) = if Z.testbit byte k then 2 ^ k else 0.
Proof.
  intros Hk. apply Z.bits_inj'. intros n Hn.
  rewrite Z.land_spec, Z.pow2_bits_eqb by lia.
  destruct (Z.eqb_spec k n) as [->|Hne].
  - destruct (Z.testbit byte n) eqn:E; simpl.
    + now rewrite Z.pow2_bits_eqb, Z.eqb_refl by lia.
    + now rewrite Z.bits_0.
  - rewrite andb_false_r. destruct (Z.testbit byte k).
    + rewrite Z.pow2_bits_eqb by lia. symmetry. now apply Z.eqb_neq.
    + now rewrite Z.bits_0.
Qed.

Lemma land_pow2_eqb (byte k : Z) :
  0 <= k -> (Z.land byte (2 ^ k) =? 0) = negb (Z.testbit byte k).
Proof.
  intros Hk. rewrite land_pow2 by done.
  destruct (Z.testbit byte k); simpl; [|done].
  apply Z.eqb_neq. pose proof (Z.pow_pos_nonneg 2 k). lia.
Qed.

Lemma lor_pow2_bits (byte k n : Z) :
  0 <= k -> 0 <= n ->
  Z.testbit (Z.lor byte (2 ^ k)) n = Z.testbit byte n || (k =? n).
Proof. intros Hk Hn. now rewrite Z.lor_spec, Z.pow2_bits_eqb by lia. Qed.

Lemma lor_pow2_byte (byte k : Z) :
  0 <= byte < 256 -> 0 <= k < 8 -> 0 <= Z.lor byte (2 ^ k) < 256.
Proof.
  intros Hb Hk.
  assert (H2k : 0 < 2 ^ k) by (apply Z.pow_pos_nonneg; lia).
  assert (Hnn : 0 <= Z.lor byte (2 ^ k)) by (apply Z.lor_nonneg; lia).
  split; [done|].
  assert (Hpos : 0 < Z.lor byte (2 ^ k)).
  { destruct (Z.eq_dec (Z.lor byte (2 ^ k)) 0) as [E|]; [|lia].
    apply Z.lor_eq_0_iff in E. lia. }
  change 256 with (2 ^ 8). apply Z.log2_lt_pow2; [done|].
  rewrite Z.log2_lor by lia. rewrite Z.log2_pow2 by lia.
  destruct (Z.eq_dec byte 0) as [->|]; [simpl; lia|].
  assert (Z.log2 byte < 8) by (apply Z.log2_lt_pow2; [lia|]; change (2^8) with 256; lia).
  lia.
Qed.

(** ** Indexing *)

Lemma py_norm_in {A} (l : list A) (i : Z) :
  0 <= i < Z.of_nat (length l) -> py_norm l i = Ok (Z.to_nat i).
Proof.
  intros Hi. unfold py_norm.
  destruct (Z.ltb_spec i 0); [lia|].
  destruct (Z.leb_spec 0 i); [|lia].
  destruct (Z.ltb_spec i (Z.of_nat (length l))); [done|lia].
Qed.

Lemma py_index_in (l : list Z) (i : Z) :
  0 <= i < Z.of_nat (length l) -> py_index l i = Ok (l !!! Z.to_nat i).
Proof.
  intros Hi. unfold py_index. rewrite py_norm_in by done. simpl.
  destruct (l !! Z.to_nat i) eqn:E.
  - now rewrite (list_lookup_total_correct _ _ _ E).
  - apply lookup_ge_None in E. lia.
Qed.

(** ** [visit] is a test-and-set of one bit *)

Lemma visit_spec (vm : VisitedMap.t) (n1 n2 : Z) :
  let pos := n1 * VisitedMap.side vm + n2 in
  0 <= pos < 8 * Z.of_nat (length (VisitedMap.map vm)) ->
  bytes_ok (VisitedMap.map vm) ->
  exists m',
    VisitedMap.visit vm n1 n2
      = Ok (bit_at (VisitedMap.map vm) pos,
            VisitedMap.mk (VisitedMap.side vm) m')
    /\ length m' = length (VisitedMap.map vm)
    /\ bytes_ok m'
    /\ forall q, 0 <= q ->
         bit_at m' q = bit_at (VisitedMap.map vm) q || (q =? pos).
Proof.
  intros pos Hpos Hok. destruct vm as [sd m]; simpl in *.
  set (i := Z.to_nat (pos / 8)).
  set (k := pos mod 8).
  assert (Hk : 0 <= k < 8) by (apply Z.mod_pos_bound; lia).
  assert (Hdiv : 0 <= pos / 8 < Z.of_nat (length m)).
  { split; [apply Z.div_pos; lia|apply Z.div_lt_upper_bound; lia]. }
  assert (Hi : (i < length m)%nat) by (unfold i; lia).
  assert (Hbyte : 0 <= m !!! i < 256).
  { destruct (lookup_lt_is_Some_2 m i Hi) as [b Hb].
    rewrite (list_lookup_total_correct _ _ _ Hb).
    exact (proj1 (Forall_lookup _ _) Hok i b Hb). }
  exists (<[i := Z.lor (m !!! i) (2 ^ k)]> m).
  split; [|split; [|split]].
  - unfold VisitedMap.visit; simpl. fold pos.
    rewrite py_index_in by done. simpl.
    unfold bytearray_setitem. rewrite py_norm_in by done. simpl.
    fold i k. rewrite Z.shiftl_1_l.
    pose proof (lor_pow2_byte (m !!! i) k Hbyte Hk) as [Hlo Hhi].
    destruct (Z.leb_spec 0 (Z.lor (m !!! i) (2 ^ k))); [|lia].
    destruct (Z.ltb_spec (Z.lor (m !!! i) (2 ^ k)) 256); [|lia].
    simpl. rewrite land_pow2_eqb by lia. rewrite negb_involutive.
    reflexivity.
  - apply length_insert.
  - apply Forall_insert; [done|]. apply lor_pow2_byte; done.
  - intros q Hq. unfold bit_at.
    assert (Hqk : 0 <= q mod 8 < 8) by (apply Z.mod_pos_bound; lia).
    destruct (decide (Z.to_nat (q / 8) = i)) as [E|E].
    + rewrite E, list_lookup_total_insert_eq by done.
      rewrite lor_pow2_bits by lia. f_equal.
      assert (q / 8 = pos / 8).
      { unfold i in E. pose proof (Z.div_pos q 8). lia. }
      pose proof (Z.div_mod q 8). pose proof (Z.div_mod pos 8).
      unfold k. destruct (Z.eqb_spec (pos mod 8) (q mod 8));
        destruct (Z.eqb_spec q pos); try done; lia.
    + rewrite list_lookup_total_insert_ne by done.
      destruct (Z.eqb_spec q pos) as [->|]; [|now rewrite orb_false_r].
      now destruct E.
Qed.

(** ** The scanner *)

Lemma BITS_from_0 : VisitedMap.BITS = bits_from 0.
Proof. reflexivity. Qed.

Lemma bits_from_cons (k : Z) :
  k < 8 -> bits_from k = (k, 2 ^ k) :: bits_from (k + 1).
Proof.
  intros Hk. unfold bits_from. rewrite (seqZ_cons k) by lia.
  rewrite fmap_cons.
  replace (Z.succ k) with (k + 1) by lia.
  replace (Z.pred (8 - k)) with (8 - (k + 1)) by lia.
  reflexivity.
Qed.

Lemma bits_from_nil (k : Z) : 8 <= k -> bits_from k = [].
Proof. intros Hk. unfold bits_from. now rewrite seqZ_nil by lia. Qed.

Lemma bit_at_byte (m : list Z) (byte_pos i : Z) :
  0 <= byte_pos -> 0 <= i < 8 ->
  bit_at m (byte_pos * 8 + i) = Z.testbit (m !!! Z.to_nat byte_pos) i.
Proof.
  intros Hb Hi. unfold bit_at.
  replace ((byte_pos * 8 + i) / 8) with byte_pos
    by (apply (Z.div_unique _ 8 byte_pos i); lia).
  replace ((byte_pos * 8 + i) mod 8) with i
    by (apply (Z.mod_unique _ 8 byte_pos i); lia).
  reflexivity.
Qed.

Lemma unflat_flat (sd pos : Z) :
  0 < sd -> flat sd (pos / sd, pos mod sd) = pos.
Proof. intros Hsd. unfold flat; simpl. pose proof (Z.div_mod pos sd). lia. Qed.

Lemma unflat_in_range (sd pos : Z) :
  0 < sd -> 0 <= pos -> pos / sd < sd -> in_range sd (pos / sd, pos mod sd).
Proof.
  intros Hsd Hpos Hlt. unfold in_range; simpl.
  pose proof (Z.div_pos pos sd). pose proof (Z.mod_pos_bound pos sd). lia.
Qed.

Lemma flat_bounds (sd : Z) (p : Z * Z) :
  in_range sd p -> 0 <= flat sd p < sd * sd.
Proof. destruct p as [a b]. unfold in_range, flat; simpl. nia. Qed.

Lemma flat_inj (sd : Z) (p q : Z * Z) :
  in_range sd p -> in_range sd q -> flat sd p = flat sd q -> p = q.
Proof.
  destruct p as [a b], q as [c d]. unfold in_range, flat; simpl.
  intros Hp Hq E. assert (a = c) by nia. subst. f_equal. lia.
Qed.

Lemma scan_bits_spec (sd byte_pos byte : Z) (n : nat) (k : Z) :
  0 < sd -> 0 <= byte_pos -> 0 <= k -> Z.of_nat n = 8 - k ->
  match VisitedMap.scan_bits sd byte_pos byte (bits_from k) with
  | Ok (VisitedMap.Yielded p rest) =>
      exists j, k <= j < 8 /\ rest = bits_from (j + 1)
        /\ Z.testbit byte j = false
        /\ (forall i, k <= i < j -> Z.testbit byte i = true)
        /\ p = ((byte_pos * 8 + j) / sd, (byte_pos * 8 + j) mod sd)
        /\ (byte_pos * 8 + j) / sd < sd
  | Ok VisitedMap.Returned =>
      exists j, k <= j < 8
        /\ (forall i, k <= i < j -> Z.testbit byte i = true)
        /\ sd <= (byte_pos * 8 + j) / sd
  | Ok VisitedMap.Exhausted =>
      forall i, k <= i < 8 -> Z.testbit byte i = true
  | Raise _ | OutOfFuel => False
  end.
Proof.
  intros Hsd Hbp. revert k. induction n as [|n IH]; intros k Hk Hn.
  - rewrite bits_from_nil by lia. simpl. intros i Hi. lia.
  - rewrite bits_from_cons by lia. simpl.
    rewrite land_pow2_eqb by lia.
    destruct (Z.testbit byte k) eqn:Ek; simpl.
    + specialize (IH (k + 1) ltac:(lia) ltac:(lia)).
      destruct (VisitedMap.scan_bits sd byte_pos byte (bits_from (k + 1)))
        as [[p rest| |]|e|]; try done.
      * destruct IH as (j & Hj & Hrest & Hbit & Hbefore & Hp & Hlt).
        exists j. repeat split; try done; try lia.
        intros i Hi. destruct (decide (i = k)) as [->|]; [done|].
        apply Hbefore. lia.
      * destruct IH as (j & Hj & Hbefore & Hge).
        exists j. repeat split; try done; try lia.
        intros i Hi. destruct (decide (i = k)) as [->|]; [done|].
        apply Hbefore. lia.
      * intros i Hi. destruct (decide (i = k)) as [->|]; [done|].
        apply IH. lia.
    + destruct (Z.eqb_spec sd 0); [lia|].
      destruct (Z.geb_spec ((byte_pos * 8 + k) / sd) sd).
      * exists k. repeat split; first [done | lia | intros; lia].
      * exists k. repeat split; first [done | lia | intros; lia].
Qed.

Lemma py_index_out (l : list Z) (i : Z) :
  Z.of_nat (length l) <= i -> py_index l i = Raise IndexError.
Proof.
  intros Hi. unfold py_index, py_norm.
  destruct (Z.ltb_spec i 0); [lia|].
  destruct (Z.leb_spec 0 i); [|lia].
  destruct (Z.ltb_spec i (Z.of_nat (length l))); [lia|done].
Qed.

Lemma pulled_spec_extend (sd L : Z) (m : list Z) (c c' : Z) r :
  c <= c' -> (forall q, c <= q < c' -> bit_at m q = true) ->
  pulled_spec sd L m c' r -> pulled_spec sd L m c r.
Proof.
  intros Hc Hset. destruct r as [[p it'|]|e|]; simpl; try done.
  - intros (Hr & Hle & Hbit & Hbefore & Hat).
    split; [done|]. split; [lia|]. split; [done|]. split; [|done].
    intros q Hq. destruct (Z.lt_ge_cases q c'); [apply Hset|apply Hbefore]; lia.
  - intros Hall q Hq HL.
    destruct (Z.lt_ge_cases q c'); [apply Hset|apply Hall]; lia.
Qed.

(** One byte of the scan, from bit [k] on, followed by the later bytes. *)
Lemma scan_byte_spec (sd L : Z) (m : list Z) (byte_pos k : Z) :
  let self := VisitedMap.mk sd m in
  let later := seqZ (byte_pos + 1) (L - (byte_pos + 1)) in
  0 < sd -> 0 <= byte_pos < L -> 0 <= k <= 8 ->
  pulled_spec sd L m ((byte_pos + 1) * 8) (VisitedMap.scan_bytes self later) ->
  pulled_spec sd L m (byte_pos * 8 + k)
    (byte ← py_index m byte_pos;
     r ← VisitedMap.scan_bits sd byte_pos byte (bits_from k);
     match r with
     | VisitedMap.Yielded p rest =>
         Ok (VisitedMap.Yield p (VisitedMap.Suspended byte_pos rest later))
     | VisitedMap.Returned => Ok VisitedMap.Stop
     | VisitedMap.Exhausted => VisitedMap.scan_bytes self later
     end).
Proof.
  intros self later Hsd Hbp Hk Hlater.
  destruct (Z.lt_ge_cases byte_pos (Z.of_nat (length m))) as [Hin|Hout].
  2:{ rewrite py_index_out by lia. simpl. lia. }
  rewrite py_index_in by lia. simpl.
  set (byte := m !!! Z.to_nat byte_pos).
  assert (Hbits : forall i, 0 <= i < 8 ->
            bit_at m (byte_pos * 8 + i) = Z.testbit byte i).
  { intros i Hi. apply bit_at_byte; lia. }
  pose proof (scan_bits_spec sd byte_pos byte (Z.to_nat (8 - k)) k
                Hsd ltac:(lia) ltac:(lia) ltac:(lia)) as Hscan.
  destruct (VisitedMap.scan_bits sd byte_pos byte (bits_from k))
    as [[p rest| |]|e|]; simpl; try done.
  - destruct Hscan as (j & Hj & -> & Hbit & Hbefore & -> & Hlt).
    rewrite unflat_flat by done.
    split; [|split; [|split; [|split]]].
    + apply unflat_in_range; [done|lia|done].
    + lia.
    + rewrite Hbits by lia. done.
    + intros q Hq.
      replace q with (byte_pos * 8 + (q - byte_pos * 8)) by lia.
      rewrite Hbits by lia. apply Hbefore. lia.
    + replace (byte_pos * 8 + j + 1) with (byte_pos * 8 + (j + 1)) by lia.
      constructor; lia.
  - destruct Hscan as (j & Hj & Hbefore & Hge).
    intros q Hq HL.
    assert (sd * sd <= byte_pos * 8 + j).
    { pose proof (Z.mul_div_le (byte_pos * 8 + j) sd Hsd). nia. }
    replace q with (byte_pos * 8 + (q - byte_pos * 8)) by lia.
    rewrite Hbits by lia. apply Hbefore. lia.
  - eapply pulled_spec_extend; [| |exact Hlater]; [lia|].
    intros q Hq.
    replace q with (byte_pos * 8 + (q - byte_pos * 8)) by lia.
    rewrite Hbits by lia. apply Hscan. lia.
Qed.

Lemma scan_bytes_spec (sd L : Z) (m : list Z) (n : nat) (b : Z) :
  0 < sd -> 0 <= b -> Z.of_nat n = L - b ->
  pulled_spec sd L m (b * 8)
    (VisitedMap.scan_bytes (VisitedMap.mk sd m) (seqZ b (L - b))).
Proof.
  intros Hsd. revert b. induction n as [|n IH]; intros b Hb Hn.
  - rewrite seqZ_nil by lia. simpl. intros q Hq HL. lia.
  - rewrite seqZ_cons by lia.
    replace (Z.succ b) with (b + 1) by lia.
    replace (Z.pred (L - b)) with (L - (b + 1)) by lia.
    cbn [VisitedMap.scan_bytes VisitedMap.map VisitedMap.side].
    rewrite BITS_from_0.
    replace (b * 8) with (b * 8 + 0) by lia.
    apply scan_byte_spec; try lia.
    apply IH; lia.
Qed.

Lemma resume_spec (sd L : Z) (m : list Z) (it : VisitedMap.scanner) (c : Z) :
  0 < sd -> scanner_at L it c ->
  (it = VisitedMap.Fresh -> Z.of_nat (length m) = L) ->
  pulled_spec sd L m c (VisitedMap.resume (VisitedMap.mk sd m) it).
Proof.
  intros Hsd Hat Hfresh. destruct Hat as [|byte_pos k Hbp Hk].
  - assert (0 <= L) by (rewrite <- (Hfresh eq_refl); lia).
    simpl. rewrite (Hfresh eq_refl).
    replace L with (L - 0) at 2 by lia.
    apply (scan_bytes_spec sd L m (Z.to_nat L) 0); lia.
  - cbn [VisitedMap.resume VisitedMap.map VisitedMap.side].
    apply scan_byte_spec; try lia.
    apply (scan_bytes_spec sd L m (Z.to_nat (L - (byte_pos + 1)))); lia.
Qed.

(** ** The state space *)

Lemma elem_of_all_pairs (base : Z) (p : Z * Z) :
  p ∈ all_pairs base <-> in_range base p.
Proof.
  destruct p as [a b]. unfold all_pairs, in_range. simpl.
  rewrite list_elem_of_In, in_prod_iff, <- !list_elem_of_In, !elem_of_seqZ.
  lia.
Qed.

Lemma NoDup_list_prod {A B} (l : list A) (k : list B) :
  NoDup l -> NoDup k -> NoDup (list_prod l k).
Proof.
  intros Hl Hk. induction Hl as [|x l Hx Hl IH]; simpl; [constructor|].
  apply NoDup_app. split; [|split; [|done]].
  - by apply (NoDup_fmap_2 (pair x)).
  - intros [a b] Hin Hin'.
    apply list_elem_of_fmap in Hin as (b' & E & _). inversion E; subst.
    apply list_elem_of_In, in_prod_iff in Hin' as [Hin' _].
    by apply list_elem_of_In in Hin'.
Qed.

Lemma NoDup_all_pairs (base : Z) : NoDup (all_pairs base).
Proof. apply NoDup_list_prod; apply NoDup_seqZ. Qed.

Lemma length_all_pairs (base : Z) :
  0 <= base -> length (all_pairs base) = Z.to_nat (base * base).
Proof.
  intros Hb. unfold all_pairs. rewrite length_prod, !length_seqZ.
  now rewrite Z2Nat.inj_mul by lia.
Qed.

Lemma visited_bound (base : Z) vm V :
  0 < base ->
  visited_inv base vm V -> (length V <= Z.to_nat (base * base))%nat.
Proof.
  intros Hb Hinv. rewrite <- length_all_pairs by lia. apply submseteq_length.
  apply NoDup_submseteq; [apply Hinv|].
  intros p Hp. apply elem_of_all_pairs. now apply Hinv.
Qed.

Lemma step_in_range (base : Z) (p : Z * Z) :
  0 < base -> in_range base p -> in_range base (step base p).
Proof.
  intros Hb [H1 H2]. unfold in_range, step; simpl.
  pose proof (Z.mod_pos_bound (p.1 + p.2) base Hb). lia.
Qed.

Lemma flat_in_map (base : Z) vm V (p : Z * Z) :
  0 < base -> visited_inv base vm V -> in_range base p ->
  0 <= flat base p < 8 * Z.of_nat (length (VisitedMap.map vm)).
Proof.
  intros Hb Hinv Hp. rewrite (inv_len _ _ _ Hinv).
  pose proof (flat_bounds base p Hp).
  pose proof (Z.div_mod (base * base + 7) 8).
  pose proof (Z.mod_pos_bound (base * base + 7) 8). lia.
Qed.

(** ** One run *)

Lemma visit_inv (base : Z) vm V (p : Z * Z) :
  0 < base -> visited_inv base vm V -> in_range base p ->
  exists vm',
    VisitedMap.visit vm p.1 p.2 = Ok (bool_decide (p ∈ V), vm')
    /\ visited_inv base vm' (if bool_decide (p ∈ V) then V else V ++ [p]).
Proof.
  intros Hb Hinv Hp.
  pose proof (flat_in_map base vm V p Hb Hinv Hp) as Hpos.
  destruct (visit_spec vm p.1 p.2) as (m' & Hvisit & Hlen & Hok & Hbits).
  { rewrite (inv_side _ _ _ Hinv). exact Hpos. }
  { apply Hinv. }
  rewrite (inv_side _ _ _ Hinv) in Hvisit, Hbits. fold (flat base p) in *.
  assert (Hseen : bit_at (VisitedMap.map vm) (flat base p)
                  = bool_decide (p ∈ V)).
  { pose proof (inv_bits _ _ _ Hinv p Hp) as Hiff.
    destruct (bit_at (VisitedMap.map vm) (flat base p));
      case_bool_decide; try done; [tauto|].
    destruct Hiff as [_ Hiff]. now specialize (Hiff ltac:(done)). }
  exists (VisitedMap.mk base m'). split; [now rewrite Hvisit, Hseen|].
  assert (Hbits' : forall q, in_range base q ->
            bit_at m' (flat base q) = true <-> q ∈ V \/ q = p).
  { intros q Hq. rewrite Hbits by (apply flat_bounds in Hq; lia).
    rewrite orb_true_iff, (inv_bits _ _ _ Hinv q Hq), Z.eqb_eq.
    split; (intros [?|E]; [by left|right]); [|by subst].
    by apply (flat_inj base). }
  case_bool_decide as Hin.
  - constructor; simpl; try apply Hinv; try done.
    + now rewrite Hlen, (inv_len _ _ _ Hinv).
    + intros q Hq. rewrite Hbits' by done.
      split; [intros [? | ->]; done|by left].
  - constructor; simpl; try done.
    + now rewrite Hlen, (inv_len _ _ _ Hinv).
    + apply NoDup_app. split; [apply Hinv|]. split; [|apply NoDup_singleton].
      intros q Hq Hq'. apply list_elem_of_singleton in Hq'. by subst.
    + intros q Hq. apply elem_of_app in Hq as [Hq|Hq]; [by apply Hinv|].
      apply list_elem_of_singleton in Hq. by subst.
    + intros q Hq. rewrite Hbits' by done.
      rewrite elem_of_app, list_elem_of_singleton. done.
Qed.

Lemma walk_spec (base : Z) :
  0 < base ->
  forall (fuel : nat) vm V (p : Z * Z) (run : list Z),
    visited_inv base vm V -> in_range base p ->
    (Z.to_nat (base * base) - length V < fuel)%nat ->
    exists vm' k,
      walk fuel base vm p.1 p.2 run
        = Ok (vm', run ++ (trajectory base k p).*2)
      /\ visited_inv base vm' (V ++ trajectory base k p)
      /\ (p ∉ V -> (0 < k)%nat).
Proof.
  intros Hb. induction fuel as [|fuel IH]; intros vm V p run Hinv Hp Hfuel.
  - lia.
  - destruct (visit_inv base vm V p Hb Hinv Hp) as (vm1 & Hvisit & Hinv1).
    cbn [walk]. rewrite Hvisit. simpl.
    case_bool_decide as Hin.
    + exists vm1, 0%nat. simpl. rewrite !app_nil_r. done.
    + destruct (Z.eqb_spec base 0); [lia|].
      pose proof (visited_bound _ _ _ Hb Hinv1) as Hbound.
      rewrite length_app in Hbound. simpl in Hbound.
      destruct (IH vm1 (V ++ [p]) (step base p) (run ++ [p.2]) Hinv1)
        as (vm2 & k & Hwalk & Hinv2 & _).
      { by apply step_in_range. }
      { rewrite length_app. simpl. lia. }
      exists vm2, (S k). simpl in *. rewrite Hwalk.
      rewrite <- !app_assoc in *. simpl in *. split; [done|]. split; [done|lia].
Qed.

Lemma length_trajectory (base : Z) (k : nat) (p : Z * Z) :
  length (trajectory base k p) = k.
Proof. revert p. induction k as [|k IH]; intros p; simpl; [done|]. by rewrite IH. Qed.

Lemma trajectory_in_range (base : Z) (k : nat) (p : Z * Z) :
  0 < base -> in_range base p -> Forall (in_range base) (trajectory base k p).
Proof.
  intros Hb. revert p. induction k as [|k IH]; intros p Hp; simpl.
  - constructor.
  - constructor; [done|]. apply IH. by apply step_in_range.
Qed.

(** ** One iteration of the loop of [modulo_fibonacci] *)

Lemma loop_spec (base : Z) vm it V (c : Z) :
  0 < base -> visited_inv base vm V ->
  scanner_at ((base * base + 7) / 8) it c -> covered base V c ->
  (loop base vm it = Ok StopIteration /\ forall p, in_range base p -> p ∈ V)
  \/ (exists start run vm' it' c',
        loop base vm it = Ok (Emit start run (Loop base vm' it'))
        /\ run_of base (start, run)
        /\ visited_inv base vm' (V ++ trajectory base (length run) start)
        /\ scanner_at ((base * base + 7) / 8) it' c'
        /\ covered base (V ++ trajectory base (length run) start) c').
Proof.
  intros Hb Hinv Hat Hcov.
  pose proof (resume_spec base _ (VisitedMap.map vm) it c Hb Hat
                (fun _ => inv_len _ _ _ Hinv)) as Hres.
  replace (VisitedMap.mk base (VisitedMap.map vm)) with vm in Hres
    by (destruct vm; simpl; f_equal; apply Hinv).
  unfold loop.
  destruct (VisitedMap.resume vm it) as [[p it'|]|e|];
    cbn [mbind res_bind pulled_spec] in *.
  - right. destruct Hres as (Hp & Hle & Hbit & Hbefore & Hat').
    assert (Hnew : p ∉ V).
    { intros Hin. apply (inv_bits _ _ _ Hinv p Hp) in Hin. congruence. }
    destruct (walk_spec base Hb (walk_fuel vm) vm V p [] Hinv Hp)
      as (vm' & k & Hwalk & Hinv' & Hk).
    { unfold walk_fuel. rewrite (inv_side _ _ _ Hinv). lia. }
    specialize (Hk Hnew). destruct p as [n1 n2]. cbn [fst snd] in Hwalk.
    rewrite Hwalk. cbn [mbind res_bind app].
    set (run := (trajectory base k (n1, n2)).*2).
    assert (Hlen : length run = k).
    { unfold run. by rewrite length_fmap, length_trajectory. }
    exists (n1, n2), run, vm', it', (flat base (n1, n2) + 1).
    rewrite Hlen. split; [done|]. split; [|split; [done|split; [done|]]].
    + unfold run_of. simpl. rewrite Hlen. done.
    + intros q Hq Hlt. apply elem_of_app.
      destruct (Z.lt_ge_cases (flat base q) c); [left; by apply Hcov|].
      destruct (Z.eq_dec (flat base q) (flat base (n1, n2))) as [E|E].
      * right. apply (flat_inj base) in E; [|done..]. subst q.
        destruct k; [lia|]. simpl. apply list_elem_of_here.
      * left. apply (inv_bits _ _ _ Hinv q Hq). apply Hbefore. lia.
  - left. split; [done|]. intros p Hp.
    destruct (Z.lt_ge_cases (flat base p) c); [by apply Hcov|].
    apply (inv_bits _ _ _ Hinv p Hp).
    pose proof (flat_in_map base vm V p Hb Hinv Hp) as Hin.
    rewrite (inv_len _ _ _ Hinv) in Hin.
    pose proof (flat_bounds base p Hp).
    apply Hres; lia.
  - pose proof (inv_len _ _ _ Hinv). lia.
  - done.
Qed.

(** ** The whole enumeration *)

Lemma drain_spec (base : Z) :
  0 < base ->
  forall (fuel : nat) vm it V (c : Z),
    visited_inv base vm V ->
    scanner_at ((base * base + 7) / 8) it c -> covered base V c ->
    (Z.to_nat (base * base) - length V < fuel)%nat ->
    exists its,
      drain fuel (Loop base vm it) = Ok its
      /\ V ++ traversed base its ≡ₚ all_pairs base
      /\ Forall (run_of base) its.
Proof.
  intros Hb. induction fuel as [|fuel IH]; intros vm it V c Hinv Hat Hcov Hfuel.
  - lia.
  - cbn [drain next].
    destruct (loop_spec base vm it V c Hb Hinv Hat Hcov)
      as [[Hloop Hall]|(start & run & vm' & it' & c' & Hloop & Hrun
                         & Hinv' & Hat' & Hcov')].
    + rewrite Hloop. simpl. exists []. split; [done|]. split; [|constructor].
      unfold traversed. simpl. rewrite app_nil_r.
      apply NoDup_Permutation; [apply Hinv|apply NoDup_all_pairs|].
      intros p. rewrite elem_of_all_pairs. split; [apply Hinv|apply Hall].
    + rewrite Hloop. simpl.
      pose proof (visited_bound _ _ _ Hb Hinv') as Hbound.
      rewrite length_app, length_trajectory in Hbound.
      destruct Hrun as (Hstart & Hpos & Hrun). simpl in Hpos.
      destruct (IH vm' it' _ c' Hinv' Hat' Hcov') as (its & Hdrain & Hperm & Hruns).
      { rewrite length_app, length_trajectory. lia. }
      rewrite Hdrain. simpl. exists ((start, run) :: its).
      split; [done|]. split; [|by constructor].
      unfold traversed in *. simpl. by rewrite app_assoc.
Qed.

Lemma new_inv (base : Z) :
  0 < base -> visited_inv base (VisitedMap.new base) [].
Proof.
  intros Hb.
  assert (0 <= (base * base + 7) / 8) by (apply Z.div_pos; nia).
  constructor; simpl.
  - lia.
  - rewrite length_replicate. lia.
  - by apply Forall_replicate.
  - constructor.
  - intros p Hp. by apply elem_of_nil in Hp.
  - intros p Hp. split; [|intros Hin; by apply elem_of_nil in Hin].
    pose proof (flat_bounds base p Hp) as Hfl.
    unfold bit_at. rewrite lookup_total_replicate_2.
    + by rewrite Z.bits_0.
    + pose proof (Z.div_mod (base * base + 7) 8).
      pose proof (Z.mod_pos_bound (base * base + 7) 8).
      assert (flat base p / 8 < (base * base + 7) / 8).
      { apply Z.div_lt_upper_bound; lia. }
      pose proof (Z.div_pos (flat base p) 8). lia.
Qed.

Lemma iterations_spec (base : Z) :
  0 < base ->
  exists its,
    iterations base = Ok its
    /\ traversed base its ≡ₚ all_pairs base
    /\ Forall (run_of base) its.
Proof.
  intros Hb.
  destruct (drain_spec base Hb (S (Z.to_nat (base * base)))
              (VisitedMap.new base) VisitedMap.Fresh [] 0)
    as (its & Hdrain & Hperm & Hruns).
  - by apply new_inv.
  - constructor.
  - intros p Hp Hlt. apply flat_bounds in Hp. lia.
  - simpl. lia.
  - exists its. split; [|done].
    unfold iterations. cbn [drain next] in *.
    destruct (Z.leb_spec base 0); [lia|done].
Qed.

Lemma length_traversed (base : Z) (its : list ((Z * Z) * list Z)) :
  length (traversed base its) = length (concat (its.*2)).
Proof.
  unfold traversed. induction its as [|it its IH]; csimpl; [done|].
  by rewrite !length_app, length_trajectory, IH.
Qed.

Lemma run_of_residues (base : Z) (it : (Z * Z) * list Z) :
  0 < base -> run_of base it -> Forall (fun x => 0 <= x < base) it.2.
Proof.
  intros Hb (Hstart & _ & ->).
  pose proof (trajectory_in_range base (length it.2) it.1 Hb Hstart) as Htr.
  induction Htr as [|p l Hp _ IH]; simpl; constructor; [apply Hp|done].
Qed.

(** C1: for every positive base the enumeration runs to completion, and
    the pairs marked by its iterations (for each emitted orbit, the states
    met from its starting pair, one per emitted element) are a
    rearrangement of the [base * base] ordered pairs of residues: no pair
    appears twice and none is left out. Each orbit lists the second
    components of its states. *)
Theorem partition_property (base : Z) :
  0 < base ->
  exists its,
    iterations base = Ok its
    /\ modulo_fibonacci base = Ok (its.*2)
    /\ traversed base its ≡ₚ all_pairs base
    /\ NoDup (traversed base its)
    /\ Forall (fun it => it.2 = (trajectory base (length it.2) it.1).*2) its.
Proof.
  intros Hb. destruct (iterations_spec base Hb) as (its & Hits & Hperm & Hruns).
  exists its. split; [done|]. split; [|split; [done|split]].
  - unfold modulo_fibonacci. by rewrite Hits.
  - rewrite Hperm. apply NoDup_all_pairs.
  - eapply Forall_impl; [exact Hruns|]. intros it Hit. apply Hit.
Qed.

Lemma partition_property_witness :
  0 < 2 /\
  exists its,
    iterations 2 = Ok its
    /\ modulo_fibonacci 2 = Ok (its.*2)
    /\ traversed 2 its ≡ₚ all_pairs 2
    /\ NoDup (traversed 2 its)
    /\ Forall (fun it => it.2 = (trajectory 2 (length it.2) it.1).*2) its.
Proof. split; [lia|]. apply (partition_property 2). lia. Defined.

(** C8: every orbit yielded by [modulo_fibonacci] has at least one
    element, and every element of every orbit is a residue in
    [0, base). *)
Theorem orbits_nonempty (base : Z) :
  0 < base ->
  exists runs,
    modulo_fibonacci base = Ok runs
    /\ Forall (fun run => (1 <= length run)%nat
                          /\ Forall (fun x => 0 <= x < base) run) runs.
Proof.
  intros Hb. destruct (iterations_spec base Hb) as (its & Hits & _ & Hruns).
  exists (its.*2). split; [unfold modulo_fibonacci; by rewrite Hits|].
  apply Forall_fmap. eapply Forall_impl; [exact Hruns|].
  intros it Hit. simpl. split; [apply Hit|by apply run_of_residues].
Qed.

Lemma orbits_nonempty_witness :
  0 < 3 /\
  exists runs,
    modulo_fibonacci 3 = Ok runs
    /\ Forall (fun run => (1 <= length run)%nat
                          /\ Forall (fun x => 0 <= x < 3) run) runs.
Proof. split; [lia|]. apply (orbits_nonempty 3). lia. Defined.

Lemma no_empty_runs (runs : list (list Z)) :
  Forall (fun run => (0 < length run)%nat) runs ->
  filter (fun run => run = []) runs = [].
Proof.
  induction 1 as [|run runs Hrun _ IH]; [done|].
  rewrite filter_cons. destruct (decide (run = [])) as [->|]; [simpl in *; lia|done].
Qed.

(** C4: for every positive base the number of residues emitted over all
    orbits is [base * base] minus the number of orbits emitted empty (of
    which there are none); for base 10 it is 100, and the buckets of the
    grouping by length hold 100 elements in all. *)
Theorem emitted_total :
  (forall base, 0 < base ->
     exists runs,
       modulo_fibonacci base = Ok runs
       /\ Z.of_nat (length (concat runs))
          = base * base - Z.of_nat (length (filter (fun run => run = []) runs)))
  /\ exists runs10,
       modulo_fibonacci 10 = Ok runs10
       /\ length (concat runs10) = 100%nat
       /\ buckets_total (group_by_length length runs10) = 100%nat
       /\ histogram_total (histogram (group_by_length length runs10)) = 100%nat.
Proof.
  split.
  - intros base Hb.
    destruct (iterations_spec base Hb) as (its & Hits & Hperm & Hruns).
    exists (its.*2). split; [unfold modulo_fibonacci; by rewrite Hits|].
    rewrite no_empty_runs.
    + rewrite <- (length_traversed base), Hperm, length_all_pairs by lia.
      simpl. nia.
    + apply Forall_fmap. eapply Forall_impl; [exact Hruns|].
      intros it Hit. apply Hit.
  - eexists. split; [vm_compute; reflexivity|].
    repeat split; vm_compute; reflexivity.
Qed.

Lemma emitted_total_witness :
  0 < 3 /\
  exists runs,
    modulo_fibonacci 3 = Ok runs
    /\ Z.of_nat (length (concat runs))
       = 3 * 3 - Z.of_nat (length (filter (fun run => run = []) runs)).
Proof. split; [lia|]. apply (proj1 emitted_total 3). lia. Defined.

(** C5: for a base that is not positive the first pull from the generator
    raises [ValueError], from the not-started state, in which no map
    exists yet, so that draining it yields no orbit and gives that error;
    for a positive base the enumeration completes without any error. *)
Theorem invalid_base (base : Z) :
  (base <= 0 ->
     next (Start base) = Raise ValueError
     /\ modulo_fibonacci base = Raise ValueError)
  /\ (0 < base -> exists runs, modulo_fibonacci base = Ok runs).
Proof.
  split.
  - intros Hb. unfold modulo_fibonacci, iterations. cbn [drain next].
    destruct (Z.leb_spec base 0); [done|lia].
  - intros Hb. destruct (iterations_spec base Hb) as (its & Hits & _).
    exists (its.*2). unfold modulo_fibonacci. by rewrite Hits.
Qed.

Lemma invalid_base_witness :
  (-1 <= 0 /\ modulo_fibonacci (-1) = Raise ValueError)
  /\ (0 < 3 /\ exists runs, modulo_fibonacci 3 = Ok runs).
Proof.
  split; (split; [lia|]).
  - apply (proj1 (invalid_base (-1))). lia.
  - apply (proj2 (invalid_base 3)). lia.
Defined.

(** ** Marking and its history *)

Lemma visits_spec (base : Z) :
  0 < base ->
  forall (ps : list (Z * Z)) vm V (H : list (Z * Z)),
    visited_inv base vm V -> (forall p, p ∈ V <-> p ∈ H) ->
    Forall (in_range base) ps ->
    exists vm' V',
      visits vm ps = Ok (seen_before H ps, vm')
      /\ visited_inv base vm' V'
      /\ (forall p, p ∈ V' <-> p ∈ H ++ ps).
Proof.
  intros Hb. induction ps as [|p ps IH]; intros vm V H Hinv HV Hps.
  - exists vm, V. simpl. rewrite app_nil_r. done.
  - apply Forall_cons in Hps as [Hp Hps].
    destruct (visit_inv base vm V p Hb Hinv Hp) as (vm1 & Hvisit & Hinv1).
    set (V1 := if bool_decide (p ∈ V) then V else V ++ [p]) in *.
    assert (HV1 : forall q, q ∈ V1 <-> q ∈ H ++ [p]).
    { intros q. unfold V1. rewrite elem_of_app, list_elem_of_singleton.
      case_bool_decide as Hin.
      - rewrite HV. split; [by left|]. intros [? | ->]; [done|by apply HV].
      - rewrite elem_of_app, list_elem_of_singleton, HV. done. }
    destruct (IH vm1 V1 (H ++ [p]) Hinv1 HV1 Hps) as (vm2 & V2 & Hrest & Hinv2 & HV2).
    exists vm2, V2. cbn [visits seen_before]. rewrite Hvisit. simpl.
    rewrite Hrest. simpl. split; [|split; [done|]].
    + do 3 f_equal. apply bool_decide_ext, HV.
    + intros q. rewrite HV2, <- app_assoc. done.
Qed.

Lemma seen_before_again (H : list (Z * Z)) (p : Z * Z) (n : nat) :
  p ∈ H -> seen_before H (replicate n p) = replicate n true.
Proof.
  revert H. induction n as [|n IH]; intros H Hin; simpl; [done|].
  rewrite bool_decide_true by done. f_equal. apply IH.
  apply elem_of_app. by left.
Qed.

(** C2: on a map of side [base] in any state reached from a fresh one by
    calls of [visit] on pairs in range, [visit(a, b)] for a pair in range
    returns the bit of flat index [a * base + b] as it was before the
    call, which is true exactly when the pair was visited before; after
    the call that bit is set, and no other bit has changed. *)
Theorem visit_test_and_set (base : Z) (ps : list (Z * Z)) (a b : Z) :
  0 < base -> Forall (in_range base) ps -> 0 <= a < base -> 0 <= b < base ->
  exists outs vm vm',
    visits (VisitedMap.new base) ps = Ok (outs, vm)
    /\ VisitedMap.visit vm a b
       = Ok (bit_at (VisitedMap.map vm) (a * base + b), vm')
    /\ bit_at (VisitedMap.map vm) (a * base + b) = bool_decide ((a, b) ∈ ps)
    /\ bit_at (VisitedMap.map vm') (a * base + b) = true
    /\ (forall q, 0 <= q -> q <> a * base + b ->
          bit_at (VisitedMap.map vm') q = bit_at (VisitedMap.map vm) q)
    /\ VisitedMap.side vm' = base
    /\ length (VisitedMap.map vm') = length (VisitedMap.map vm).
Proof.
  intros Hb Hps Ha Hbb.
  destruct (visits_spec base Hb ps (VisitedMap.new base) [] []
              (new_inv base Hb) (fun p => reflexivity _) Hps)
    as (vm & V & Hvisits & Hinv & HV).
  assert (Hp : in_range base (a, b)) by done.
  pose proof (flat_in_map base vm V (a, b) Hb Hinv Hp) as Hpos.
  destruct (visit_spec vm a b) as (m' & Hvisit & Hlen & Hok & Hbits).
  { rewrite (inv_side _ _ _ Hinv). exact Hpos. }
  { apply Hinv. }
  rewrite (inv_side _ _ _ Hinv) in Hvisit, Hbits.
  exists (seen_before [] ps), vm, (VisitedMap.mk base m').
  split; [done|]. split; [done|]. split; [|split; [|split; [|done]]].
  - pose proof (inv_bits _ _ _ Hinv (a, b) Hp) as Hiff.
    rewrite HV in Hiff. unfold flat in Hiff. simpl in Hiff.
    destruct (bit_at (VisitedMap.map vm) (a * base + b));
      case_bool_decide; try done; [tauto|].
    destruct Hiff as [_ Hiff]. now specialize (Hiff ltac:(done)).
  - simpl. rewrite Hbits by (unfold flat in Hpos; simpl in Hpos; lia).
    rewrite Z.eqb_refl. apply orb_true_r.
  - intros q Hq Hne. simpl. rewrite Hbits by done.
    destruct (Z.eqb_spec q (a * base + b)); [done|apply orb_false_r].
Qed.

Lemma visit_test_and_set_witness :
  exists outs vm vm',
    visits (VisitedMap.new 3) [(1, 2); (0, 1)] = Ok (outs, vm)
    /\ VisitedMap.visit vm 1 2
       = Ok (bit_at (VisitedMap.map vm) (1 * 3 + 2), vm')
    /\ bit_at (VisitedMap.map vm) (1 * 3 + 2)
       = bool_decide ((1, 2) ∈ [(1, 2); (0, 1)])
    /\ bit_at (VisitedMap.map vm') (1 * 3 + 2) = true
    /\ (forall q, 0 <= q -> q <> 1 * 3 + 2 ->
          bit_at (VisitedMap.map vm') q = bit_at (VisitedMap.map vm) q)
    /\ VisitedMap.side vm' = 3
    /\ length (VisitedMap.map vm') = length (VisitedMap.map vm).
Proof.
  apply (visit_test_and_set 3 [(1, 2); (0, 1)] 1 2); [lia| |lia|lia].
  repeat constructor; simpl; lia.
Defined.

(** C7: on a fresh map, for a pair in range, the first call of [visit]
    returns false, the second returns true, and so does every later call
    on that pair. *)
Theorem visit_idempotent (base a b : Z) (n : nat) :
  0 < base -> 0 <= a < base -> 0 <= b < base ->
  exists vm,
    visits (VisitedMap.new base) (replicate (2 + n) (a, b))
    = Ok (false :: true :: replicate n true, vm).
Proof.
  intros Hb Ha Hbb.
  destruct (visits_spec base Hb (replicate (2 + n) (a, b))
              (VisitedMap.new base) [] []
              (new_inv base Hb) (fun p => reflexivity _))
    as (vm & V & Hvisits & _).
  { by apply Forall_replicate. }
  exists vm. rewrite Hvisits.
  assert (seen_before [] (replicate (2 + n) (a, b))
          = false :: true :: replicate n true) as ->; [|done].
  change (seen_before [] (replicate (2 + n) (a, b)))
    with (bool_decide ((a, b) ∈ @nil (Z * Z))
          :: seen_before [(a, b)] (replicate (S n) (a, b))).
  rewrite bool_decide_false by apply not_elem_of_nil.
  f_equal. change (true :: replicate n true) with (replicate (S n) true).
  apply (seen_before_again _ (a, b) (S n)). apply list_elem_of_here.
Qed.

Lemma visit_idempotent_witness :
  exists vm,
    visits (VisitedMap.new 3) (replicate (2 + 1) (1, 2))
    = Ok (false :: true :: replicate 1 true, vm).
Proof. apply (visit_idempotent 3 1 2 1); lia. Defined.

(** ** The scanner under mutation *)

Lemma scanner_at_nonneg (L : Z) it (c : Z) : scanner_at L it c -> 0 <= c.
Proof. destruct 1; lia. Qed.

Lemma scanner_at_fresh (L : Z) (c : Z) :
  scanner_at L VisitedMap.Fresh c -> c = 0.
Proof. by inversion 1. Qed.

Lemma pulls_spec (sd L : Z) :
  0 < sd ->
  forall (stores : list (list Z)) it (c : Z),
    scanner_at L it c ->
    (it = VisitedMap.Fresh ->
       match stores with
       | [] => True
       | m :: _ => Z.of_nat (length m) = L
       end) ->
    let ps := pulls sd it stores in
    Forall (fun p => c <= flat sd p) ps
    /\ StronglySorted Z.lt (flat sd <$> ps)
    /\ Forall2 (fun p m => bit_at m (flat sd p) = false)
         ps (take (length ps) stores)
    /\ Forall (in_range sd) ps.
Proof.
  intros Hsd. induction stores as [|m later IH]; intros it c Hat Hfresh.
  - simpl. repeat split; constructor.
  - pose proof (resume_spec sd L m it c Hsd Hat Hfresh) as Hres.
    cbn [pulls].
    destruct (VisitedMap.resume (VisitedMap.mk sd m) it) as [[p it'|]|e|];
      simpl in Hres; [|cbn zeta; repeat split; constructor..].
    destruct Hres as (Hp & Hle & Hbit & _ & Hat').
    pose proof (scanner_at_nonneg _ _ _ Hat) as Hc.
    destruct (IH it' (flat sd p + 1) Hat') as (Hlow & Hsorted & Hbits & Hrange).
    { intros ->. apply scanner_at_fresh in Hat'. lia. }
    cbn zeta. cbn [length take].
    split; [|split; [|split]].
    + constructor; [done|]. eapply Forall_impl; [exact Hlow|].
      intros q Hq. simpl in Hq. lia.
    + rewrite fmap_cons. constructor; [done|].
      apply Forall_fmap. eapply Forall_impl; [exact Hlow|].
      intros q Hq. simpl in *. lia.
    + by constructor.
    + by constructor.
Qed.

Lemma last_pull_spec (sd L : Z) :
  0 < sd ->
  forall (stores : list (list Z)) it (c : Z),
    scanner_at L it c ->
    Forall (fun m => Z.of_nat (length m) = L) stores ->
    match last_pull sd it stores with
    | Some (r, m) =>
        r = Ok VisitedMap.Stop
        /\ forall q, cursor_after sd c (pulls sd it stores) <= q < sd * sd ->
                     q < 8 * L -> bit_at m q = true
    | None => length (pulls sd it stores) = length stores
    end.
Proof.
  intros Hsd. induction stores as [|m later IH]; intros it c Hat Hlen.
  - done.
  - apply Forall_cons in Hlen as [Hm Hlater].
    pose proof (resume_spec sd L m it c Hsd Hat (fun _ => Hm)) as Hres.
    cbn [last_pull pulls].
    destruct (VisitedMap.resume (VisitedMap.mk sd m) it) as [[p it'|]|e|];
      cbn [pulled_spec] in Hres.
    + destruct Hres as (_ & _ & _ & _ & Hat').
      specialize (IH it' (flat sd p + 1) Hat' Hlater).
      cbn [cursor_after length].
      destruct (last_pull sd it' later) as [[r m']|]; [done|by rewrite IH].
    + split; [done|]. exact Hres.
    + lia.
    + done.
Qed.

Lemma sorted_lt_NoDup (l : list Z) : StronglySorted Z.lt l -> NoDup l.
Proof.
  induction 1 as [|x l _ IH Hall]; constructor; [|done].
  intros Hin. pose proof (proj1 (Forall_forall _ _) Hall x Hin). lia.
Qed.

Lemma pulls_count (sd : Z) (stores : list (list Z)) :
  0 < sd ->
  (length (pulls sd VisitedMap.Fresh stores) <= Z.to_nat (sd * sd))%nat.
Proof.
  intros Hsd.
  destruct (pulls_spec sd
              (match stores with [] => 0 | m :: _ => Z.of_nat (length m) end)
              Hsd stores VisitedMap.Fresh 0 (at_fresh _))
    as (_ & Hsorted & _ & Hrange).
  { intros _. by destruct stores. }
  rewrite <- (length_all_pairs sd) by lia. apply submseteq_length.
  apply NoDup_submseteq.
  - apply (NoDup_fmap_1 (flat sd)). by apply sorted_lt_NoDup.
  - intros p Hp. apply elem_of_all_pairs.
    exact (proj1 (Forall_forall _ _) Hrange p Hp).
Qed.

(** C6: a scanner started on a map and pulled any number of times, the
    map changing freely between the pulls, yields pairs of strictly
    increasing flat index; each yielded pair has its bit unset in the map
    as it is at that very pull; and every yielded pair is in range, so its
    flat index is at most [side * side - 1]. The map keeping its length,
    as a bytearray assigned by index does, the first pull that does not
    yield ends the scan normally, never with an error, and only when no
    pair from the scan position on is unset in the map at that pull; and
    the scan cannot go on yielding for more than [side * side] pulls. *)
Theorem scan_order (sd : Z) (stores : list (list Z)) :
  0 < sd ->
  let ps := pulls sd VisitedMap.Fresh stores in
  StronglySorted Z.lt (flat sd <$> ps)
  /\ Forall2 (fun p m => bit_at m (flat sd p) = false)
       ps (take (length ps) stores)
  /\ Forall (fun p => in_range sd p /\ flat sd p <= sd * sd - 1) ps
  /\ (forall L, Forall (fun m => Z.of_nat (length m) = L) stores ->
        match last_pull sd VisitedMap.Fresh stores with
        | Some (r, m) =>
            r = Ok VisitedMap.Stop
            /\ forall q, cursor_after sd 0 ps <= q < sd * sd ->
                         q < 8 * L -> bit_at m q = true
        | None =>
            length ps = length stores
            /\ (length stores <= Z.to_nat (sd * sd))%nat
        end).
Proof.
  intros Hsd ps.
  destruct (pulls_spec sd
              (match stores with [] => 0 | m :: _ => Z.of_nat (length m) end)
              Hsd stores VisitedMap.Fresh 0 (at_fresh _))
    as (_ & Hsorted & Hbits & Hrange).
  { intros _. by destruct stores. }
  split; [done|]. split; [done|]. split.
  - eapply Forall_impl; [exact Hrange|].
    intros p Hp. split; [done|]. apply flat_bounds in Hp. lia.
  - intros L Hlen.
    pose proof (last_pull_spec sd L Hsd stores VisitedMap.Fresh 0
                  (at_fresh _) Hlen) as Hlast.
    fold ps in Hlast.
    destruct (last_pull sd VisitedMap.Fresh stores) as [[r m]|]; [done|].
    split; [done|]. rewrite <- Hlast. by apply pulls_count.
Qed.

Lemma scan_order_witness :
  0 < 2 /\
  let ps := pulls 2 VisitedMap.Fresh [[0]; [1]; [15]] in
  StronglySorted Z.lt (flat 2 <$> ps)
  /\ Forall2 (fun p m => bit_at m (flat 2 p) = false)
       ps (take (length ps) [[0]; [1]; [15]])
  /\ Forall (fun p => in_range 2 p /\ flat 2 p <= 2 * 2 - 1) ps
  /\ (forall L, Forall (fun m => Z.of_nat (length m) = L) [[0]; [1]; [15]] ->
        match last_pull 2 VisitedMap.Fresh [[0]; [1]; [15]] with
        | Some (r, m) =>
            r = Ok VisitedMap.Stop
            /\ forall q, cursor_after 2 0 ps <= q < 2 * 2 ->
                         q < 8 * L -> bit_at m q = true
        | None =>
            length ps = length [[0]; [1]; [15]]
            /\ (length [[0]; [1]; [15]] <= Z.to_nat (2 * 2))%nat
        end).
Proof. split; [lia|]. apply (scan_order 2 [[0]; [1]; [15]]). lia. Defined.

(** ** Grouping by length *)

Section GroupingFacts.
Context {A : Type} (len : A -> nat).

Lemma bucket_append_keys (k : nat) (x : A) (g : list (nat * list A)) :
  (bucket_append k x g).*1 = if decide (k ∈ g.*1) then g.*1 else g.*1 ++ [k].
Proof.
  induction g as [|[k' items] g IH]; csimpl.
  - destruct (decide (k ∈ [])) as [Hin|]; [by apply elem_of_nil in Hin|done].
  - destruct (decide (k = k')) as [->|Hne]; csimpl.
    + destruct (decide (k' ∈ k' :: g.*1)) as [|Hn]; [done|].
      destruct Hn. apply list_elem_of_here.
    + rewrite IH.
      destruct (decide (k ∈ g.*1)) as [Hin|Hnin];
        destruct (decide (k ∈ k' :: g.*1)) as [Hin'|Hnin']; try done.
      * destruct Hnin'. by apply list_elem_of_further.
      * apply elem_of_cons in Hin' as [?|?]; done.
Qed.

Lemma bucket_bucket_append (k k' : nat) (x : A) (g : list (nat * list A)) :
  bucket k' (bucket_append k x g)
  = if decide (k' = k) then bucket k g ++ [x] else bucket k' g.
Proof.
  induction g as [|[k0 items] g IH]; simpl.
  - destruct (decide (k' = k)); done.
  - destruct (decide (k = k0)) as [->|Hne]; simpl.
    + destruct (decide (k' = k0)); done.
    + rewrite IH. destruct (decide (k' = k0)) as [->|]; [|done].
      rewrite decide_False by done. done.
Qed.

Lemma bucket_append_concat (k : nat) (x : A) (g : list (nat * list A)) :
  concat ((bucket_append k x g).*2) ≡ₚ concat (g.*2) ++ [x].
Proof.
  induction g as [|[k' items] g IH]; simpl; [done|].
  destruct (decide (k = k')); simpl.
  - rewrite <- !app_assoc. apply Permutation_app_head, Permutation_app_comm.
  - rewrite IH. by rewrite app_assoc.
Qed.

Lemma grouped_of_snoc (seq : list A) (x : A) :
  grouped_of len (seq ++ [x])
  = bucket_append (len x) x (grouped_of len seq).
Proof. unfold grouped_of. by rewrite foldl_snoc. Qed.

Lemma grouped_of_spec (seq : list A) :
  NoDup (grouped_of len seq).*1
  /\ (forall k, k ∈ (grouped_of len seq).*1
                <-> exists x, x ∈ seq /\ len x = k)
  /\ (forall k, bucket k (grouped_of len seq)
                = filter (fun x => len x = k) seq)
  /\ concat ((grouped_of len seq).*2) ≡ₚ seq.
Proof.
  induction seq as [|x seq (Hnd & Hkeys & Hbuckets & Hall)] using rev_ind.
  - repeat split; try done; try constructor.
    + intros Hin. by apply elem_of_nil in Hin.
    + intros (x & Hin & _). by apply elem_of_nil in Hin.
  - rewrite grouped_of_snoc, bucket_append_keys.
    split; [|split; [|split]].
    + destruct (decide _) as [Hin|Hnin]; [done|].
      apply NoDup_app. split; [done|]. split; [|apply NoDup_singleton].
      intros k Hk Hk'. apply list_elem_of_singleton in Hk'. by subst.
    + intros k. transitivity (k ∈ (grouped_of len seq).*1 \/ k = len x).
      * destruct (decide _) as [Hin|Hnin].
        -- split; [by left|]. by intros [?| ->].
        -- by rewrite elem_of_app, list_elem_of_singleton.
      * rewrite Hkeys. split.
        -- intros [(y & Hy & <-)| ->].
           ++ exists y. split; [|done]. apply elem_of_app. by left.
           ++ exists x. split; [|done]. apply elem_of_app. right.
              apply list_elem_of_here.
        -- intros (y & Hy & <-). apply elem_of_app in Hy as [Hy|Hy].
           ++ left. by exists y.
           ++ right. apply list_elem_of_singleton in Hy. by subst.
    + intros k. rewrite bucket_bucket_append, filter_app, !Hbuckets.
      rewrite filter_cons, filter_nil.
      destruct (decide (k = len x)) as [->|Hne].
      * by rewrite decide_True.
      * rewrite decide_False by done. by rewrite app_nil_r.
    + rewrite bucket_append_concat. by rewrite Hall.
Qed.

Lemma bucket_of_entry (g : list (nat * list A)) (k : nat) (items : list A) :
  NoDup g.*1 -> (k, items) ∈ g -> bucket k g = items.
Proof.
  induction g as [|[k' items'] g IH]; simpl; intros Hnd Hin.
  - by apply elem_of_nil in Hin.
  - apply NoDup_cons in Hnd as [Hk' Hnd].
    apply elem_of_cons in Hin as [E|Hin].
    + inversion E; subst. by rewrite decide_True.
    + rewrite decide_False; [by apply IH|].
      intros ->. apply Hk'. apply list_elem_of_fmap. by exists (k', items).
Qed.

Global Instance key_ge_total : Total (@key_ge A).
Proof. intros x y. unfold key_ge. lia. Qed.

Global Instance key_ge_trans : Transitive (@key_ge A).
Proof. intros x y z. unfold key_ge. lia. Qed.

Lemma sorted_strict (g : list (nat * list A)) :
  StronglySorted key_ge g -> NoDup g.*1 ->
  StronglySorted (fun x y => (y.1 < x.1)%nat) g.
Proof.
  induction 1 as [|kv g Hsorted IH Hall]; intros Hnd; [constructor|].
  simpl in Hnd. apply NoDup_cons in Hnd as [Hnew Hnd].
  constructor; [by apply IH|].
  apply Forall_forall. intros kv' Hin.
  pose proof (proj1 (Forall_forall _ _) Hall kv' Hin) as Hge.
  unfold key_ge in Hge.
  assert (kv'.1 <> kv.1); [|lia].
  intros E. apply Hnew. rewrite <- E. apply list_elem_of_fmap. by exists kv'.
Qed.

Lemma group_by_length_facts (seq : list A) :
  let g := group_by_length len seq in
  StronglySorted (fun x y => (y.1 < x.1)%nat) g
  /\ (forall k, k ∈ g.*1 <-> exists x, x ∈ seq /\ len x = k)
  /\ (forall k items, (k, items) ∈ g ->
        items = filter (fun x => len x = k) seq)
  /\ concat (g.*2) ≡ₚ seq.
Proof.
  intros g.
  destruct (grouped_of_spec seq) as (Hnd & Hkeys & Hbuckets & Hall).
  assert (Hperm : g ≡ₚ grouped_of len seq) by apply merge_sort_Permutation.
  split; [|split; [|split]].
  - apply sorted_strict; [apply StronglySorted_merge_sort; apply _|].
    by rewrite Hperm.
  - intros k. by rewrite Hperm.
  - intros k items Hin. rewrite Hperm in Hin.
    rewrite <- Hbuckets. symmetry. by apply bucket_of_entry.
  - rewrite <- Hall.
    assert (Hconcat : forall l k : list (list A),
              l ≡ₚ k -> concat l ≡ₚ concat k).
    { induction 1 as [|y l k _ IH|y z l|l k k' _ IH1 _ IH2]; simpl.
      - done.
      - by rewrite IH.
      - rewrite !app_assoc. apply Permutation_app_tail, Permutation_app_comm.
      - by rewrite IH1. }
    apply Hconcat. by rewrite Hperm.
Qed.

End GroupingFacts.

(** C9: applied to any finite sequence of lists, [group_by_length] gives
    a mapping whose keys are strictly descending, are exactly the lengths
    that occur in the sequence, and whose bucket for a length holds exactly
    the lists of that length, in the order of the sequence. *)
Theorem group_by_length_spec {B : Type} (seq : list (list B)) :
  let g := group_by_length length seq in
  StronglySorted (fun x y => (y.1 < x.1)%nat) g
  /\ (forall k, k ∈ g.*1 <-> exists item, item ∈ seq /\ length item = k)
  /\ (forall k items, (k, items) ∈ g ->
        items = filter (fun item => length item = k) seq).
Proof.
  intros g.
  destruct (group_by_length_facts length seq) as (H1 & H2 & H3 & _).
  done.
Qed.

(** ** Base 2 *)

(** C3 as stated fails: the orbits emitted for base 2 are not [[]] and
    [[1, 0, 1]]. *)
Lemma base2_claimed_orbits_fail : modulo_fibonacci 2 <> Ok [[]; [1; 0; 1]].
Proof. vm_compute. discriminate. Qed.

(** C3 (amended): for base 2 the enumeration emits exactly two orbits, in
    this order: [[0]] from the starting pair (0, 0), which closes after one
    step, and [[1, 1, 0]] from (0, 1), which closes after three; the
    histogram of lengths is {3: 1, 1: 1}. *)
Theorem base2_orbits :
  iterations 2 = Ok [((0, 0), [0]); ((0, 1), [1; 1; 0])]
  /\ modulo_fibonacci 2 = Ok [[0]; [1; 1; 0]]
  /\ histogram (group_by_length length [[0]; [1; 1; 0]])
     = [(3, 1); (1, 1)]%nat.
Proof. repeat split; vm_compute; reflexivity. Qed.

(** ** The display layer and the run objects *)

Section DumpFacts.
Variables (BRIGHT MAGENTA GREEN YELLOW RESET_ALL : string).
Variable self : Alphabet.t.

Local Abbreviation dump_run :=
  (Alphabet.dump_run BRIGHT MAGENTA GREEN YELLOW RESET_ALL self).
Local Abbreviation dump :=
  (Alphabet.dump BRIGHT MAGENTA GREEN YELLOW RESET_ALL self).

Lemma dump_run_heap (w w' : world) (r : ref) :
  dump_run w r = Ok w' ->
  heap w' = <[r := removelast (heap w !!! r)]> (heap w).
Proof.
  unfold Alphabet.dump_run, list_pop.
  destruct (last (heap w !!! r)) as [x|]; simpl; [|done].
  destruct (Alphabet.symbol self x) as [s| |]; simpl; [|done..].
  match goal with
  | |- context [mbind _ ?m] => destruct m as [body| |]; simpl; [|done..]
  end.
  by intros [= <-].
Qed.

Lemma dump_heap (runs : list ref) :
  forall (w w' : world),
    dump w runs = Ok w' -> NoDup runs ->
    forall r, heap w' !! r
              = (if decide (r ∈ runs) then @removelast Z else id) <$> heap w !! r.
Proof.
  induction runs as [|r0 runs IH]; intros w w' Hdump Hnd r.
  - injection Hdump as <-. rewrite decide_False by apply not_elem_of_nil.
    by destruct (heap w !! r).
  - apply NoDup_cons in Hnd as [Hnew Hnd].
    cbn [Alphabet.dump] in Hdump.
    destruct (dump_run w r0) as [w1| |] eqn:Hrun; simpl in Hdump; [|done..].
    rewrite (IH w1 w' Hdump Hnd r), (dump_run_heap _ _ _ Hrun).
    rewrite list_lookup_insert.
    destruct (decide (_ /\ _)) as [[-> Hlt]|Hne].
    + rewrite (decide_False (P := r ∈ runs)) by done.
      rewrite (decide_True (P := r ∈ r :: runs)) by apply list_elem_of_here.
      rewrite list_lookup_lookup_total_lt by done. done.
    + destruct (decide (r = r0)) as [E|Hr].
      * subst r.
        assert (heap w !! r0 = None) as ->; [|by repeat case_decide].
        apply lookup_ge_None. lia.
      * destruct (decide (r ∈ runs)) as [Hin|Hnin].
        -- rewrite decide_True by (by apply list_elem_of_further). done.
        -- rewrite decide_False; [done|].
           intros Hin. apply elem_of_cons in Hin as [?|?]; done.
Qed.

End DumpFacts.

(** C10 as stated fails: displaying the orbits of base 2 changes them. *)
Lemma dump_mutates_orbits :
  exists runs grouped_runs w',
    modulo_fibonacci 2 = Ok runs
    /\ main_dump Style_BRIGHT Fore_MAGENTA Fore_GREEN Fore_YELLOW
         Style_RESET_ALL alphabet2 2 = Ok (grouped_runs, w')
    /\ heap w' <> runs.
Proof.
  eexists _, _, _. split; [vm_compute; reflexivity|].
  split; [vm_compute; reflexivity|]. discriminate.
Qed.

(** C10 (amended): grouping leaves every orbit as it was emitted, but
    [Alphabet.dump] removes the last element of each orbit it prints
    ([run.pop()]) and changes nothing else: after the display every
    emitted orbit holds its original elements but the last, in order. *)
Theorem dump_pops_last (BRIGHT MAGENTA GREEN YELLOW RESET_ALL : string)
    (alphabet : Alphabet.t) (base : Z) (runs : list (list Z))
    (grouped_runs : list (nat * list ref)) (w' : world) :
  modulo_fibonacci base = Ok runs ->
  main_dump BRIGHT MAGENTA GREEN YELLOW RESET_ALL alphabet base
    = Ok (grouped_runs, w') ->
  grouped_runs = group_by_length (len_in runs) (seq 0 (length runs))
  /\ heap w' = @removelast Z <$> runs.
Proof.
  intros Hruns. unfold main_dump. rewrite Hruns. cbn [mbind res_bind heap].
  set (g := group_by_length (len_in runs) (seq 0 (length runs))).
  destruct (Alphabet.dump _ _ _ _ _ _ _ _) as [w1| |] eqn:Hdump; [|done..].
  intros [= <- <-]. split; [done|].
  destruct (group_by_length_facts (len_in runs) (seq 0 (length runs)))
    as (_ & _ & _ & Hperm). fold g in Hperm.
  assert (Hnd : NoDup (concat g.*2)) by (rewrite Hperm; apply NoDup_seq).
  apply list_eq. intros r.
  rewrite (dump_heap _ _ _ _ _ _ _ _ _ Hdump Hnd r). simpl.
  rewrite list_lookup_fmap.
  destruct (decide (r ∈ concat g.*2)) as [Hin|Hnin]; [done|].
  assert (runs !! r = None) as ->; [|done].
  apply lookup_ge_None. destruct (Nat.le_gt_cases (length runs) r); [done|].
  destruct Hnin. rewrite Hperm. apply elem_of_seq. lia.
Qed.

Lemma dump_pops_last_witness :
  exists runs grouped_runs w',
    modulo_fibonacci 2 = Ok runs
    /\ main_dump Style_BRIGHT Fore_MAGENTA Fore_GREEN Fore_YELLOW
         Style_RESET_ALL alphabet2 2 = Ok (grouped_runs, w')
    /\ grouped_runs = group_by_length (len_in runs) (seq 0 (length runs))
    /\ heap w' = @removelast Z <$> runs.
Proof.
  eexists _, _, _.
  assert (H1 : modulo_fibonacci 2 = Ok [[0]; [1; 1; 0]])
    by (vm_compute; reflexivity).
  split; [exact H1|]. split; [vm_compute; reflexivity|].
  apply (dump_pops_last Style_BRIGHT Fore_MAGENTA Fore_GREEN Fore_YELLOW
           Style_RESET_ALL alphabet2 2 _ _ _ H1).
  vm_compute. reflexivity.
Defined.

(** * Further properties of the code *)

(** ** Bounds of [visit] *)

(** X1: on a map whose bytes are in range, [visit] fails exactly when the
    byte index [pos // 8] is outside [-len, len), and then with
    [IndexError]; otherwise it succeeds on the byte that Python indexing
    selects (a negative index counts from the end), returning its bit
    [pos % 8] and storing the byte with that bit set. *)
Theorem visit_raises_iff (vm : VisitedMap.t) (n1 n2 : Z) :
  bytes_ok (VisitedMap.map vm) ->
  let m := VisitedMap.map vm in
  let len := Z.of_nat (length m) in
  let pos := n1 * VisitedMap.side vm + n2 in
  let j := Z.to_nat (if pos / 8 <? 0 then pos / 8 + len else pos / 8) in
  (- len <= pos / 8 < len ->
     VisitedMap.visit vm n1 n2
     = Ok (Z.testbit (m !!! j) (pos mod 8),
           VisitedMap.mk (VisitedMap.side vm)
             (<[j := Z.lor (m !!! j) (2 ^ (pos mod 8))]> m)))
  /\ (~ (- len <= pos / 8 < len) ->
        VisitedMap.visit vm n1 n2 = Raise IndexError).
Proof.
  intros Hok m len pos j.
  assert (Hk : 0 <= pos mod 8 < 8) by (apply Z.mod_pos_bound; lia).
  unfold VisitedMap.visit. fold m pos.
  unfold py_index, bytearray_setitem, py_norm. fold len.
  split; intros Hin.
  - assert (Hj : (j < length m)%nat).
    { unfold j. destruct (Z.ltb_spec (pos / 8) 0); lia. }
    assert (Hnorm : (0 <=? (if pos / 8 <? 0 then pos / 8 + len else pos / 8))
                    && ((if pos / 8 <? 0 then pos / 8 + len else pos / 8) <? len)
                    = true).
    { destruct (Z.ltb_spec (pos / 8) 0); apply andb_true_iff;
        split; [apply Z.leb_le|apply Z.ltb_lt|apply Z.leb_le|apply Z.ltb_lt]; lia. }
    rewrite Hnorm. cbn [mbind res_bind]. fold j.
    destruct (lookup_lt_is_Some_2 m j Hj) as [b Hb].
    rewrite Hb, (list_lookup_total_correct _ _ _ Hb).
    cbn [mbind res_bind].
    pose proof (proj1 (Forall_lookup _ _) Hok j b Hb) as Hbyte.
    rewrite Z.shiftl_1_l.
    pose proof (lor_pow2_byte b (pos mod 8) Hbyte Hk) as [Hlo Hhi].
    destruct (Z.leb_spec 0 (Z.lor b (2 ^ (pos mod 8)))); [|lia].
    destruct (Z.ltb_spec (Z.lor b (2 ^ (pos mod 8))) 256); [|lia].
    cbn [andb mbind res_bind].
    rewrite land_pow2_eqb by lia. by rewrite negb_involutive.
  - assert (Hnorm : (0 <=? (if pos / 8 <? 0 then pos / 8 + len else pos / 8))
                    && ((if pos / 8 <? 0 then pos / 8 + len else pos / 8) <? len)
                    = false).
    { apply andb_false_iff.
      destruct (Z.ltb_spec (pos / 8) 0);
        destruct (Z.leb_spec 0 (pos / 8 + len));
        destruct (Z.leb_spec 0 (pos / 8));
        destruct (Z.ltb_spec (pos / 8 + len) len);
        destruct (Z.ltb_spec (pos / 8) len); auto; lia. }
    rewrite Hnorm. done.
Qed.

Lemma visit_raises_iff_witness :
  VisitedMap.visit (VisitedMap.mk 3 [0; 4]) (-1) 2
  = Ok (Z.testbit 4 7, VisitedMap.mk 3 [0; Z.lor 4 (2 ^ 7)])
  /\ VisitedMap.visit (VisitedMap.mk 3 [0; 4]) 5 1 = Raise IndexError.
Proof.
  assert (Hok : bytes_ok [0; 4]) by (repeat constructor; lia).
  split.
  - apply (proj1 (visit_raises_iff (VisitedMap.mk 3 [0; 4]) (-1) 2 Hok)).
    vm_compute. split; [discriminate|reflexivity].
  - apply (proj2 (visit_raises_iff (VisitedMap.mk 3 [0; 4]) 5 1 Hok)).
    vm_compute. intros [_ H]. discriminate H.
Defined.

(** ** The scanner on a map that is left alone *)

Lemma scanner_at_bound (L : Z) it (c : Z) :
  0 <= L -> scanner_at L it c -> c <= 8 * L.
Proof. intros HL. destruct 1; lia. Qed.

Lemma scan_all_spec (sd L : Z) (m : list Z) :
  0 < sd -> Z.of_nat (length m) = L ->
  forall (fuel : nat) it (c : Z),
    scanner_at L it c -> 8 * L - c < Z.of_nat fuel ->
    exists ps,
      scan_all fuel (VisitedMap.mk sd m) it = Ok ps
      /\ Forall (fun p => c <= flat sd p) ps
      /\ StronglySorted Z.lt (flat sd <$> ps)
      /\ (forall p, p ∈ ps <->
            in_range sd p /\ c <= flat sd p < 8 * L
            /\ bit_at m (flat sd p) = false).
Proof.
  intros Hsd HL. induction fuel as [|fuel IH]; intros it c Hat Hfuel.
  - pose proof (scanner_at_bound L it c ltac:(lia) Hat). lia.
  - pose proof (resume_spec sd L m it c Hsd Hat (fun _ => HL)) as Hres.
    pose proof (scanner_at_nonneg _ _ _ Hat) as Hc.
    cbn [scan_all].
    destruct (VisitedMap.resume (VisitedMap.mk sd m) it) as [[p it'|]|e|];
      cbn [mbind res_bind pulled_spec] in *.
    + destruct Hres as (Hp & Hle & Hbit & Hbefore & Hat').
      pose proof (scanner_at_bound L it' _ ltac:(lia) Hat') as Hup.
      destruct (IH it' (flat sd p + 1) Hat' ltac:(lia))
        as (ps & Hscan & Hlow & Hsorted & Hmem).
      rewrite Hscan. cbn [mbind res_bind].
      exists (p :: ps). split; [done|]. split; [|split].
      * constructor; [done|]. eapply Forall_impl; [exact Hlow|].
        intros q Hq. simpl in Hq. lia.
      * rewrite fmap_cons. constructor; [done|].
        apply Forall_fmap. eapply Forall_impl; [exact Hlow|].
        intros q Hq. simpl in *. lia.
      * intros q. rewrite elem_of_cons, Hmem. split.
        -- intros [->|(Hq & Hrange & Hunset)];
             (split; [done|]; split; [lia|done]).
        -- intros (Hq & Hrange & Hunset).
           destruct (Z.lt_trichotomy (flat sd q) (flat sd p)) as [Hlt|[E|Hgt]].
           ++ rewrite Hbefore in Hunset by lia. done.
           ++ left. by apply (flat_inj sd).
           ++ right. split; [done|]. split; [lia|done].
    + exists []. split; [done|]. split; [constructor|]. split; [constructor|].
      intros p. split; [intros Hin; by apply elem_of_nil in Hin|].
      intros (Hp & Hrange & Hunset).
      pose proof (flat_bounds sd p Hp).
      rewrite Hres in Hunset by lia. done.
    + lia.
    + done.
Qed.

(** X3: draining [iterate_free_pairs] on a map of positive side that is
    not modified meanwhile succeeds and yields, in strictly ascending
    flat-index order, exactly the pairs in range that the map holds and
    whose bit is unset. *)
Theorem free_pairs_spec (vm : VisitedMap.t) :
  0 < VisitedMap.side vm ->
  let sd := VisitedMap.side vm in
  let m := VisitedMap.map vm in
  exists ps,
    free_pairs vm = Ok ps
    /\ StronglySorted Z.lt (flat sd <$> ps)
    /\ (forall p, p ∈ ps <->
          in_range sd p /\ flat sd p < 8 * Z.of_nat (length m)
          /\ bit_at m (flat sd p) = false).
Proof.
  intros Hsd sd m. destruct vm as [sd' m']. simpl in *. subst sd m.
  destruct (scan_all_spec sd' (Z.of_nat (length m')) m' Hsd eq_refl
              (S (8 * length m')) VisitedMap.Fresh 0 (at_fresh _))
    as (ps & Hscan & _ & Hsorted & Hmem); [lia|].
  exists ps. split; [done|]. split; [done|].
  intros p. rewrite Hmem. split.
  - intros (Hp & Hrange & Hunset). split; [done|]. split; [lia|done].
  - intros (Hp & Hrange & Hunset).
    pose proof (flat_bounds sd' p Hp).
    split; [done|]. split; [lia|done].
Qed.

Lemma free_pairs_spec_witness :
  0 < 2 /\
  exists ps,
    free_pairs (VisitedMap.mk 2 [5]) = Ok ps
    /\ StronglySorted Z.lt (flat 2 <$> ps)
    /\ (forall p, p ∈ ps <->
          in_range 2 p /\ flat 2 p < 8 * Z.of_nat (length [5])
          /\ bit_at [5] (flat 2 p) = false).
Proof.
  split; [lia|]. apply (free_pairs_spec (VisitedMap.mk 2 [5])). simpl. lia.
Defined.

(** ** The recurrence and its orbits *)

Lemma step_inj (base : Z) (p q : Z * Z) :
  0 < base -> in_range base p -> in_range base q ->
  step base p = step base q -> p = q.
Proof.
  destruct p as [a b], q as [c d]. unfold in_range, step; simpl.
  intros Hb Hp Hq E. injection E as -> E.
  pose proof (Z.div_mod (a + d) base). pose proof (Z.div_mod (c + d) base).
  assert ((a + d) / base = (c + d) / base) by nia.
  f_equal. nia.
Qed.

Lemma iter_in_range (base : Z) (j : nat) (p : Z * Z) :
  0 < base -> in_range base p -> in_range base (Nat.iter j (step base) p).
Proof.
  intros Hb Hp. induction j as [|j IH]; simpl; [done|].
  by apply step_in_range.
Qed.

Lemma trajectory_lookup (base : Z) (k i : nat) (p : Z * Z) :
  (i < k)%nat -> trajectory base k p !! i = Some (Nat.iter i (step base) p).
Proof.
  revert i p. induction k as [|k IH]; intros i p Hi; [lia|].
  destruct i as [|i]; [done|].
  cbn [trajectory]. rewrite lookup_cons_ne_0 by done. simpl pred.
  rewrite IH by lia. by rewrite Nat.iter_succ_r.
Qed.

Lemma elem_of_trajectory (base : Z) (k : nat) (p q : Z * Z) :
  q ∈ trajectory base k p <->
  exists j, (j < k)%nat /\ q = Nat.iter j (step base) p.
Proof.
  split.
  - intros Hin. apply list_elem_of_lookup in Hin as [j Hj].
    pose proof (lookup_lt_Some _ _ _ Hj) as Hlt.
    rewrite length_trajectory in Hlt.
    rewrite trajectory_lookup in Hj by done. exists j. split; [done|].
    congruence.
  - intros (j & Hj & ->). apply list_elem_of_lookup. exists j.
    by apply trajectory_lookup.
Qed.

(** A finite set of states closed under the recurrence is closed under
    its inverse too. *)
Lemma closed_preimage (base : Z) (V : list (Z * Z)) (x : Z * Z) :
  0 < base -> NoDup V -> (forall p, p ∈ V -> in_range base p) ->
  step_closed base V -> in_range base x -> step base x ∈ V -> x ∈ V.
Proof.
  intros Hb Hnd Hrange Hclosed Hx Hin.
  assert (Hnd' : NoDup (step base <$> V)).
  { apply NoDup_fmap_2_strong; [|done].
    intros p q Hp Hq. apply step_inj; auto. }
  assert (Hperm : step base <$> V ≡ₚ V).
  { apply submseteq_length_Permutation; [|by rewrite length_fmap].
    apply NoDup_submseteq; [done|].
    intros q Hq. apply list_elem_of_fmap in Hq as (p & -> & Hp). by apply Hclosed. }
  rewrite <- Hperm in Hin. apply list_elem_of_fmap in Hin as (v & E & Hv).
  apply step_inj in E; auto. by subst.
Qed.

Lemma iter_outside (base : Z) (V : list (Z * Z)) (x : Z * Z) (j : nat) :
  0 < base -> NoDup V -> (forall p, p ∈ V -> in_range base p) ->
  step_closed base V -> in_range base x -> x ∉ V ->
  Nat.iter j (step base) x ∉ V.
Proof.
  intros Hb Hnd Hrange Hclosed Hx Hout.
  induction j as [|j IH]; simpl; [done|].
  intros Hin. apply IH.
  apply (closed_preimage base); auto. by apply iter_in_range.
Qed.

Lemma walk_closing (base : Z) :
  0 < base ->
  forall (fuel : nat) vm V (p : Z * Z) (run : list Z) vm' run',
    visited_inv base vm V -> in_range base p ->
    walk fuel base vm p.1 p.2 run = Ok (vm', run') ->
    exists k,
      run' = run ++ (trajectory base k p).*2
      /\ Nat.iter k (step base) p ∈ V ++ trajectory base k p.
Proof.
  intros Hb. induction fuel as [|fuel IH];
    intros vm V p run vm' run' Hinv Hp Hwalk; [done|].
  destruct (visit_inv base vm V p Hb Hinv Hp) as (vm1 & Hvisit & Hinv1).
  cbn [walk] in Hwalk. rewrite Hvisit in Hwalk. cbn [mbind res_bind] in Hwalk.
  case_bool_decide as Hin.
  - injection Hwalk as <- <-. exists 0%nat. simpl.
    rewrite !app_nil_r. done.
  - destruct (Z.eqb_spec base 0); [lia|].
    destruct (IH vm1 (V ++ [p]) (step base p) (run ++ [p.2]) vm' run' Hinv1)
      as (k & -> & Hclose); [by apply step_in_range|exact Hwalk|].
    exists (S k). rewrite Nat.iter_succ_r. cbn [trajectory].
    rewrite fmap_cons. rewrite <- !app_assoc in *. done.
Qed.

(** One iteration of the loop, with where the scanner goes on and where
    the walk closed. *)
Lemma loop_ext (base : Z) vm it V (c : Z) :
  0 < base -> visited_inv base vm V ->
  scanner_at ((base * base + 7) / 8) it c -> covered base V c ->
  (loop base vm it = Ok StopIteration /\ forall p, in_range base p -> p ∈ V)
  \/ (exists start run vm' it',
        loop base vm it = Ok (Emit start run (Loop base vm' it'))
        /\ run_of base (start, run)
        /\ (start ∉ V) /\ c <= flat base start
        /\ covered base V (flat base start)
        /\ visited_inv base vm' (V ++ trajectory base (length run) start)
        /\ scanner_at ((base * base + 7) / 8) it' (flat base start + 1)
        /\ covered base (V ++ trajectory base (length run) start)
             (flat base start + 1)
        /\ (Nat.iter (length run) (step base) start
            ∈ V ++ trajectory base (length run) start)).
Proof.
  intros Hb Hinv Hat Hcov.
  pose proof (resume_spec base _ (VisitedMap.map vm) it c Hb Hat
                (fun _ => inv_len _ _ _ Hinv)) as Hres.
  replace (VisitedMap.mk base (VisitedMap.map vm)) with vm in Hres
    by (destruct vm; simpl; f_equal; apply Hinv).
  unfold loop.
  destruct (VisitedMap.resume vm it) as [[p it'|]|e|];
    cbn [mbind res_bind pulled_spec] in *.
  - right. destruct Hres as (Hp & Hle & Hbit & Hbefore & Hat').
    assert (Hnew : p ∉ V).
    { intros Hin. apply (inv_bits _ _ _ Hinv p Hp) in Hin. congruence. }
    assert (Hcov0 : covered base V (flat base p)).
    { intros q Hq Hlt.
      destruct (Z.lt_ge_cases (flat base q) c); [by apply Hcov|].
      apply (inv_bits _ _ _ Hinv q Hq). apply Hbefore. lia. }
    destruct (walk_spec base Hb (walk_fuel vm) vm V p [] Hinv Hp)
      as (vm' & k & Hwalk & Hinv' & Hk).
    { unfold walk_fuel. rewrite (inv_side _ _ _ Hinv). lia. }
    destruct (walk_closing base Hb _ _ _ _ _ _ _ Hinv Hp Hwalk)
      as (k' & Hk' & Hclose).
    assert (k' = k) as ->.
    { apply (f_equal length) in Hk'. simpl in Hk'.
      rewrite !length_fmap, !length_trajectory in Hk'. done. }
    specialize (Hk Hnew). destruct p as [n1 n2]. cbn [fst snd] in Hwalk.
    rewrite Hwalk. cbn [mbind res_bind app].
    set (run := (trajectory base k (n1, n2)).*2).
    assert (Hlen : length run = k).
    { unfold run. by rewrite length_fmap, length_trajectory. }
    exists (n1, n2), run, vm', it'. rewrite Hlen.
    split; [done|]. split; [unfold run_of; simpl; by rewrite Hlen|].
    do 5 (split; [done|]). split; [|done].
    intros q Hq Hlt. apply elem_of_app.
    destruct (Z.eq_dec (flat base q) (flat base (n1, n2))) as [E|E].
    + right. apply (flat_inj base) in E; [|done..]. subst q.
      destruct k; [lia|]. simpl. apply list_elem_of_here.
    + left. apply Hcov0; [done|lia].
  - left. split; [done|]. intros p Hp.
    destruct (Z.lt_ge_cases (flat base p) c); [by apply Hcov|].
    apply (inv_bits _ _ _ Hinv p Hp).
    pose proof (flat_in_map base vm V p Hb Hinv Hp) as Hin.
    rewrite (inv_len _ _ _ Hinv) in Hin.
    pose proof (flat_bounds base p Hp).
    apply Hres; lia.
  - pose proof (inv_len _ _ _ Hinv). lia.
  - done.
Qed.

Lemma cycle_close (base : Z) (V : list (Z * Z)) (s : Z * Z) (k : nat) :
  0 < base -> NoDup (V ++ trajectory base k s) ->
  (forall p, p ∈ V -> in_range base p) -> step_closed base V ->
  in_range base s -> s ∉ V ->
  Nat.iter k (step base) s ∈ V ++ trajectory base k s ->
  Nat.iter k (step base) s = s.
Proof.
  intros Hb Hnd Hrange Hclosed Hs Hout Hin.
  apply NoDup_app in Hnd as (HndV & _ & HndT).
  apply elem_of_app in Hin as [Hin|Hin].
  { by apply (iter_outside base V s k) in Hin. }
  apply elem_of_trajectory in Hin as (j & Hj & E).
  destruct j as [|j]; [done|]. destruct k as [|k]; [lia|].
  simpl in E. apply step_inj in E; [|done|by apply iter_in_range..].
  assert (k = j); [|lia].
  apply (NoDup_lookup (trajectory base (S k) s) k j
           (Nat.iter k (step base) s) HndT).
  - apply trajectory_lookup. lia.
  - rewrite E. apply trajectory_lookup. lia.
Qed.

Lemma cycle_closed (base : Z) (V : list (Z * Z)) (s : Z * Z) (k : nat) :
  (0 < k)%nat -> step_closed base V -> Nat.iter k (step base) s = s ->
  step_closed base (V ++ trajectory base k s).
Proof.
  intros Hk Hclosed Hcycle p Hp. apply elem_of_app.
  apply elem_of_app in Hp as [Hp|Hp]; [left; by apply Hclosed|right].
  apply elem_of_trajectory in Hp as (j & Hj & ->).
  apply elem_of_trajectory.
  destruct (decide (S j = k)) as [E|E].
  - exists 0%nat. split; [done|]. simpl. rewrite <- Hcycle at 2.
    by rewrite <- E.
  - exists (S j). split; [lia|done].
Qed.

Lemma drain_ext (base : Z) :
  0 < base ->
  forall (fuel : nat) vm it V (c : Z),
    visited_inv base vm V ->
    scanner_at ((base * base + 7) / 8) it c -> covered base V c ->
    step_closed base V ->
    (Z.to_nat (base * base) - length V < fuel)%nat ->
    exists its,
      drain fuel (Loop base vm it) = Ok its
      /\ Forall (fun it => c <= flat base it.1) its
      /\ StronglySorted Z.lt ((fun it => flat base it.1) <$> its)
      /\ Forall (fun it =>
                   Nat.iter (length it.2) (step base) it.1 = it.1
                   /\ forall p, p ∈ trajectory base (length it.2) it.1 ->
                                flat base it.1 <= flat base p) its.
Proof.
  intros Hb. induction fuel as [|fuel IH];
    intros vm it V c Hinv Hat Hcov Hclosed Hfuel; [lia|].
  cbn [drain next].
  destruct (loop_ext base vm it V c Hb Hinv Hat Hcov)
    as [[Hloop Hall]|(start & run & vm' & it' & Hloop & Hrun & Hnew & Hle
                       & Hcov0 & Hinv' & Hat' & Hcov' & Hclose)].
  - rewrite Hloop. simpl. exists []. repeat split; constructor.
  - rewrite Hloop. cbn [mbind res_bind].
    destruct Hrun as (Hstart & Hpos & _). simpl in Hstart, Hpos.
    pose proof (visited_bound _ _ _ Hb Hinv') as Hbound.
    rewrite length_app, length_trajectory in Hbound.
    assert (Hcycle : Nat.iter (length run) (step base) start = start).
    { apply (cycle_close base V); try done; apply Hinv || apply Hinv'. }
    destruct (IH vm' it' _ (flat base start + 1) Hinv' Hat' Hcov')
      as (its & Hdrain & Hlow & Hsorted & Hcycles).
    { by apply cycle_closed. }
    { rewrite length_app, length_trajectory. lia. }
    rewrite Hdrain. cbn [mbind res_bind].
    exists ((start, run) :: its). split; [done|]. split; [|split].
    + constructor; [done|]. eapply Forall_impl; [exact Hlow|].
      intros it0 Hit0. simpl in Hit0. lia.
    + rewrite fmap_cons. constructor; [done|].
      apply Forall_fmap. eapply Forall_impl; [exact Hlow|].
      intros it0 Hit0. simpl in *. lia.
    + constructor; [|done]. simpl. split; [done|].
      intros p Hp.
      destruct (Z.lt_ge_cases (flat base p) (flat base start)) as [Hlt|]; [|lia].
      pose proof (inv_nodup _ _ _ Hinv') as Hnd.
      apply NoDup_app in Hnd as (_ & Hdisj & _).
      destruct (Hdisj p); [|done].
      apply Hcov0; [|done]. apply Hinv'. apply elem_of_app. by right.
Qed.

Lemma iterations_ext (base : Z) :
  0 < base ->
  exists its,
    iterations base = Ok its
    /\ StronglySorted Z.lt ((fun it => flat base it.1) <$> its)
    /\ Forall (fun it =>
                 Nat.iter (length it.2) (step base) it.1 = it.1
                 /\ forall p, p ∈ trajectory base (length it.2) it.1 ->
                              flat base it.1 <= flat base p) its.
Proof.
  intros Hb.
  destruct (drain_ext base Hb (S (Z.to_nat (base * base)))
              (VisitedMap.new base) VisitedMap.Fresh [] 0)
    as (its & Hdrain & _ & Hsorted & Hcycles).
  - by apply new_inv.
  - constructor.
  - intros p Hp Hlt. apply flat_bounds in Hp. lia.
  - intros p Hp. by apply elem_of_nil in Hp.
  - simpl. lia.
  - exists its. split; [|done].
    unfold iterations. cbn [drain next] in *.
    destruct (Z.leb_spec base 0); [lia|done].
Qed.

Lemma iterations_facts (base : Z) :
  0 < base ->
  exists its,
    iterations base = Ok its
    /\ traversed base its ≡ₚ all_pairs base
    /\ Forall (run_of base) its
    /\ StronglySorted Z.lt ((fun it => flat base it.1) <$> its)
    /\ Forall (fun it =>
                 Nat.iter (length it.2) (step base) it.1 = it.1
                 /\ forall p, p ∈ trajectory base (length it.2) it.1 ->
                              flat base it.1 <= flat base p) its.
Proof.
  intros Hb.
  destruct (iterations_spec base Hb) as (its & Hits & Hperm & Hruns).
  destruct (iterations_ext base Hb) as (its' & Hits' & Hsorted & Hcycles).
  assert (its' = its) as -> by congruence.
  by exists its.
Qed.

Lemma run_lookup (base : Z) (k i : nat) (s : Z * Z) (x : Z) :
  (trajectory base k s).*2 !! i = Some x <->
  (i < k)%nat /\ x = (Nat.iter i (step base) s).2.
Proof.
  rewrite list_lookup_fmap. split.
  - intros Hx. destruct (trajectory base k s !! i) as [p|] eqn:Hp; [|done].
    pose proof (lookup_lt_Some _ _ _ Hp) as Hlt.
    rewrite length_trajectory in Hlt.
    rewrite trajectory_lookup in Hp by done. simpl in Hx.
    split; [done|]. congruence.
  - intros [Hlt ->]. by rewrite trajectory_lookup.
Qed.

(** X4: every emitted orbit is a cycle of the recurrence: applying the
    step as many times as the orbit has elements to its starting pair
    gives the starting pair back; so the last element of the orbit (the
    one [dump] pops) is the first component of the starting pair. *)
Theorem orbits_are_cycles (base : Z) :
  0 < base ->
  exists its,
    iterations base = Ok its
    /\ Forall (fun it =>
                 Nat.iter (length it.2) (step base) it.1 = it.1
                 /\ last it.2 = Some it.1.1) its.
Proof.
  intros Hb.
  destruct (iterations_facts base Hb) as (its & Hits & _ & Hruns & _ & Hcycles).
  exists its. split; [done|].
  apply Forall_forall. intros [s run] Hin.
  pose proof (proj1 (Forall_forall _ _) Hruns _ Hin) as (_ & Hpos & Hrun).
  pose proof (proj1 (Forall_forall _ _) Hcycles _ Hin) as [Hcycle _].
  simpl in *. split; [done|].
  rewrite last_lookup.
  destruct (length run) as [|k] eqn:Hk; [lia|].
  rewrite Hrun at 1. simpl pred.
  apply (run_lookup base (S k) k s). split; [lia|].
  rewrite <- Hcycle at 1. done.
Qed.

Lemma orbits_are_cycles_witness :
  0 < 3 /\
  exists its,
    iterations 3 = Ok its
    /\ Forall (fun it =>
                 Nat.iter (length it.2) (step 3) it.1 = it.1
                 /\ last it.2 = Some it.1.1) its.
Proof. split; [lia|]. apply (orbits_are_cycles 3). lia. Defined.

(** X5: every emitted orbit is a Fibonacci sequence modulo [base]: its
    first element is the second component of its starting pair, and each
    element from the third on is the sum of the two before it, reduced
    modulo [base]. *)
Theorem orbit_recurrence (base : Z) :
  0 < base ->
  exists its,
    iterations base = Ok its
    /\ Forall (fun it =>
                 it.2 !! 0%nat = Some it.1.2
                 /\ forall (i : nat) x y z,
                      it.2 !! i = Some x -> it.2 !! S i = Some y ->
                      it.2 !! S (S i) = Some z ->
                      z = (x + y) mod base) its.
Proof.
  intros Hb.
  destruct (iterations_facts base Hb) as (its & Hits & _ & Hruns & _).
  exists its. split; [done|].
  eapply Forall_impl; [exact Hruns|].
  intros [s run] (_ & Hpos & Hrun). simpl in *.
  rewrite Hrun. split.
  - apply run_lookup. split; [done|]. done.
  - intros i x y z Hx Hy Hz.
    apply run_lookup in Hx as [_ ->]. apply run_lookup in Hy as [_ ->].
    apply run_lookup in Hz as [_ ->]. done.
Qed.

Lemma orbit_recurrence_witness :
  0 < 3 /\
  exists its,
    iterations 3 = Ok its
    /\ Forall (fun it =>
                 it.2 !! 0%nat = Some it.1.2
                 /\ forall (i : nat) x y z,
                      it.2 !! i = Some x -> it.2 !! S i = Some y ->
                      it.2 !! S (S i) = Some z ->
                      z = (x + y) mod 3) its.
Proof. split; [lia|]. apply (orbit_recurrence 3). lia. Defined.

(** X6: the orbits are discovered in strictly ascending order of the
    flat index of their starting pairs, and the starting pair of an orbit
    has the least flat index of all the pairs of that orbit. *)
Theorem starts_ascending (base : Z) :
  0 < base ->
  exists its,
    iterations base = Ok its
    /\ StronglySorted Z.lt ((fun it => flat base it.1) <$> its)
    /\ Forall (fun it =>
                 forall p, p ∈ trajectory base (length it.2) it.1 ->
                           flat base it.1 <= flat base p) its.
Proof.
  intros Hb.
  destruct (iterations_facts base Hb) as (its & Hits & _ & _ & Hsorted & Hcycles).
  exists its. split; [done|]. split; [done|].
  eapply Forall_impl; [exact Hcycles|]. intros it Hit. apply Hit.
Qed.

Lemma starts_ascending_witness :
  0 < 3 /\
  exists its,
    iterations 3 = Ok its
    /\ StronglySorted Z.lt ((fun it => flat 3 it.1) <$> its)
    /\ Forall (fun it =>
                 forall p, p ∈ trajectory 3 (length it.2) it.1 ->
                           flat 3 it.1 <= flat 3 p) its.
Proof. split; [lia|]. apply (starts_ascending 3). lia. Defined.

Lemma first_iteration (base : Z) :
  0 < base ->
  exists rest, iterations base = Ok (((0, 0), [0]) :: rest).
Proof.
  intros Hb.
  destruct (iterations_facts base Hb)
    as (its & Hits & Hperm & Hruns & Hsorted & Hcycles).
  assert (H00 : (0, 0) ∈ traversed base its).
  { rewrite Hperm. apply elem_of_all_pairs. unfold in_range. simpl. lia. }
  assert (Hnd : NoDup (traversed base its)).
  { rewrite Hperm. apply NoDup_all_pairs. }
  unfold traversed in H00, Hnd.
  apply list_elem_of_bind in H00 as (it' & Hin' & Hit').
  destruct its as [|[s run] rest]; [by apply elem_of_nil in Hit'|].
  exists rest. rewrite Hits.
  pose proof (proj1 (Forall_forall _ _) Hcycles _ Hit') as [_ Hmin'].
  specialize (Hmin' _ Hin'). unfold flat at 2 in Hmin'. simpl in Hmin'.
  apply Forall_cons in Hruns as [(Hs & Hpos & Hrun) _]. simpl in Hs, Hpos, Hrun.
  rewrite fmap_cons in Hsorted. apply StronglySorted_inv in Hsorted as [_ Hall].
  assert (Hle : flat base s <= flat base it'.1).
  { apply elem_of_cons in Hit' as [->|Hit']; [simpl; lia|].
    rewrite Forall_fmap in Hall.
    pose proof (proj1 (Forall_forall _ _) Hall _ Hit') as Hlt. simpl in Hlt. lia. }
  assert (s = (0, 0)) as ->.
  { apply (flat_inj base); [done|unfold in_range; simpl; lia|].
    pose proof (flat_bounds base s Hs). unfold flat at 2. simpl. lia. }
  rewrite bind_cons in Hnd. apply NoDup_app in Hnd as [Hnd _]. simpl in Hnd.
  destruct (length run) as [|[|k]] eqn:Hk; [lia| |].
  - rewrite Hrun. done.
  - exfalso. cbn [trajectory] in Hnd. apply NoDup_cons in Hnd as [Hnot _].
    apply Hnot. unfold step at 1. simpl. rewrite Z.mod_0_l by lia.
    apply list_elem_of_here.
Qed.

(** X7: whatever the positive base, the first orbit emitted starts from
    the pair (0, 0) and is [[0]]: the zero state is a fixed point of the
    recurrence and is scanned first. *)
Theorem first_orbit (base : Z) :
  0 < base ->
  exists rest,
    iterations base = Ok (((0, 0), [0]) :: rest)
    /\ modulo_fibonacci base = Ok ([0] :: rest.*2).
Proof.
  intros Hb. destruct (first_iteration base Hb) as [rest Hits].
  exists rest. split; [done|].
  unfold modulo_fibonacci. rewrite Hits. done.
Qed.

Lemma first_orbit_witness :
  0 < 5 /\
  exists rest,
    iterations 5 = Ok (((0, 0), [0]) :: rest)
    /\ modulo_fibonacci 5 = Ok ([0] :: rest.*2).
Proof. split; [lia|]. apply (first_orbit 5). lia. Defined.

(** ** Grouping loses nothing *)

Lemma concat_perm {A} (l k : list (list A)) :
  l ≡ₚ k -> concat l ≡ₚ concat k.
Proof.
  induction 1 as [|y l k _ IH|y z l|l k k' _ IH1 _ IH2]; simpl.
  - done.
  - by rewrite IH.
  - rewrite !app_assoc. apply Permutation_app_tail, Permutation_app_comm.
  - by rewrite IH1.
Qed.


(** X8: grouping loses and duplicates nothing: the buckets of
    [group_by_length], put end to end, are a rearrangement of the input
    sequence; no bucket is empty, and every list in the bucket of a key
    has that length. *)
Theorem grouping_partition {B : Type} (seq : list (list B)) :
  let g := group_by_length length seq in
  concat (g.*2) ≡ₚ seq
  /\ (forall k items, (k, items) ∈ g ->
        items <> [] /\ Forall (fun item => length item = k) items).
Proof.
  intros g.
  destruct (group_by_length_facts length seq) as (_ & Hkeys & Hbuckets & Hperm).
  fold g in Hkeys, Hbuckets, Hperm. split; [done|].
  intros k items Hin. rewrite (Hbuckets k items Hin). split.
  - assert (Hk : k ∈ g.*1).
    { apply list_elem_of_fmap. by exists (k, items). }
    apply Hkeys in Hk as (item & Hitem & Hlen).
    intros Hnil.
    assert (Hin' : item ∈ filter (fun item => length item = k) seq)
      by (by apply list_elem_of_filter).
    rewrite Hnil in Hin'. by apply elem_of_nil in Hin'.
  - apply Forall_forall. intros item Hitem.
    by apply list_elem_of_filter in Hitem as [? _].
Qed.

(** ** The display layer: when it succeeds and when it fails *)

Lemma py_index_ok {A} (l : list A) (i : Z) :
  0 <= i < Z.of_nat (length l) -> exists x, py_index l i = Ok x.
Proof.
  intros Hi. unfold py_index. rewrite py_norm_in by done. simpl.
  destruct (l !! Z.to_nat i) as [x|] eqn:E; [by exists x|].
  apply lookup_ge_None in E. lia.
Qed.

Lemma py_index_cases {A} (l : list A) (i : Z) :
  (exists x, py_index l i = Ok x) \/ py_index l i = Raise IndexError.
Proof.
  unfold py_index, py_norm.
  destruct (_ && _); simpl; [|by right].
  destruct (l !! _) as [x|]; [left; by exists x|by right].
Qed.

Lemma lookup_total_nonempty (h : list (list Z)) (r : nat) :
  h !!! r <> [] -> (r < length h)%nat.
Proof.
  intros Hne. destruct (Nat.lt_ge_cases r (length h)) as [|Hge]; [done|].
  destruct Hne. rewrite list_lookup_total_alt.
  by rewrite (proj2 (lookup_ge_None h r) Hge).
Qed.

Section DumpOutcomes.
Variables (BRIGHT MAGENTA GREEN YELLOW RESET_ALL : string).
Variable self : Alphabet.t.

Local Abbreviation dump_run :=
  (Alphabet.dump_run BRIGHT MAGENTA GREEN YELLOW RESET_ALL self).
Local Abbreviation dump :=
  (Alphabet.dump BRIGHT MAGENTA GREEN YELLOW RESET_ALL self).
Local Abbreviation zebra := (Alphabet.zebra GREEN YELLOW self).

Lemma plain_ok (run : list Z) :
  Forall (drawable self) run -> exists out, Alphabet.plain self run = Ok out.
Proof.
  induction 1 as [|x run Hx _ [out IH]]; simpl; [by exists []|].
  destruct (py_index_ok (Alphabet.symbols self) x Hx) as [s Hs].
  unfold Alphabet.symbol. rewrite Hs. simpl. rewrite IH. simpl. by eexists.
Qed.

Lemma zebra_ok (run : list Z) (green : bool) :
  Forall (drawable self) run -> exists out, zebra green run = Ok out.
Proof.
  intros Hrun. revert green.
  induction Hrun as [|x run Hx _ IH]; intros green; simpl; [by exists []|].
  destruct (py_index_ok (Alphabet.symbols self) x Hx) as [s Hs].
  unfold Alphabet.symbol. rewrite Hs. simpl.
  destruct (IH (negb green)) as [out ->]. simpl. by eexists.
Qed.

Lemma plain_cases (run : list Z) :
  (exists out, Alphabet.plain self run = Ok out)
  \/ Alphabet.plain self run = Raise IndexError.
Proof.
  induction run as [|x run IH]; simpl; [left; by exists []|].
  unfold Alphabet.symbol.
  destruct (py_index_cases (Alphabet.symbols self) x) as [[s ->]| ->];
    simpl; [|by right].
  destruct IH as [[out ->]| ->]; simpl; [left; by eexists|by right].
Qed.

Lemma zebra_cases (run : list Z) (green : bool) :
  (exists out, zebra green run = Ok out)
  \/ zebra green run = Raise IndexError.
Proof.
  revert green. induction run as [|x run IH]; intros green; simpl;
    [left; by exists []|].
  unfold Alphabet.symbol.
  destruct (py_index_cases (Alphabet.symbols self) x) as [[s ->]| ->];
    simpl; [|by right].
  destruct (IH (negb green)) as [[out ->]| ->]; simpl;
    [left; by eexists|by right].
Qed.

Lemma dump_run_cases (w : world) (r : nat) :
  (exists w', dump_run w r = Ok w') \/ dump_run w r = Raise IndexError.
Proof.
  unfold Alphabet.dump_run, list_pop.
  destruct (last (heap w !!! r)) as [x|]; cbn [mbind res_bind]; [|by right].
  unfold Alphabet.symbol.
  destruct (py_index_cases (Alphabet.symbols self) x) as [[s Hs]|Hs];
    rewrite Hs; cbn [mbind res_bind]; [|by right].
  destruct (Alphabet.length self =? 1).
  - destruct (plain_cases (<[r:=removelast (heap w !!! r)]> (heap w) !!! r))
      as [[out Ho]|Ho]; rewrite Ho; cbn [mbind res_bind];
      [left; by eexists|by right].
  - destruct (zebra_cases (<[r:=removelast (heap w !!! r)]> (heap w) !!! r) true)
      as [[out Ho]|Ho]; rewrite Ho; cbn [mbind res_bind];
      [left; by eexists|by right].
Qed.

Lemma dump_run_ok (w : world) (r : nat) :
  heap w !!! r <> [] -> Forall (drawable self) (heap w !!! r) ->
  exists w', dump_run w r = Ok w'
             /\ length (stdout w') = S (length (stdout w)).
Proof.
  intros Hne Hdraw.
  pose proof (lookup_total_nonempty _ _ Hne) as Hr.
  destruct (exists_last Hne) as (l & x & Hl).
  unfold Alphabet.dump_run, list_pop. rewrite Hl, last_snoc. simpl.
  rewrite removelast_last, list_lookup_total_insert_eq by done.
  rewrite Hl in Hdraw. apply Forall_app in Hdraw as [Hinit Hlast].
  apply Forall_inv in Hlast.
  destruct (py_index_ok (Alphabet.symbols self) x Hlast) as [s Hs].
  unfold Alphabet.symbol at 1. rewrite Hs. simpl.
  destruct (Alphabet.length self =? 1).
  - destruct (plain_ok l Hinit) as [out ->]. simpl.
    eexists. split; [done|]. simpl. rewrite length_app. simpl. lia.
  - destruct (zebra_ok l true Hinit) as [out ->]. simpl.
    eexists. split; [done|]. simpl. rewrite length_app. simpl. lia.
Qed.

Lemma dump_ok (runs : list nat) :
  forall w : world,
    NoDup runs ->
    (forall r, r ∈ runs ->
       heap w !!! r <> [] /\ Forall (drawable self) (heap w !!! r)) ->
    exists w', dump w runs = Ok w'
               /\ length (stdout w')
                  = (length (stdout w) + length runs)%nat.
Proof.
  induction runs as [|r runs IH]; intros w Hnd Hruns.
  - exists w. simpl. split; [done|lia].
  - apply NoDup_cons in Hnd as [Hnew Hnd].
    destruct (Hruns r (list_elem_of_here _ _)) as [Hne Hdraw].
    destruct (dump_run_ok w r Hne Hdraw) as (w1 & Hrun & Hout).
    cbn [Alphabet.dump]. rewrite Hrun. cbn [mbind res_bind].
    destruct (IH w1 Hnd) as (w' & Hdump & Hout').
    { intros r' Hr'.
      rewrite (dump_run_heap _ _ _ _ _ _ _ _ _ Hrun).
      rewrite list_lookup_total_insert_ne by (intros ->; done).
      apply Hruns. by apply list_elem_of_further. }
    exists w'. split; [done|]. rewrite Hout', Hout. simpl. lia.
Qed.

Lemma dump_empty (runs : list nat) :
  forall (w : world) (r : nat),
    NoDup runs -> r ∈ runs -> heap w !!! r = [] ->
    dump w runs = Raise IndexError.
Proof.
  induction runs as [|r0 runs IH]; intros w r Hnd Hin Hempty.
  - by apply elem_of_nil in Hin.
  - apply NoDup_cons in Hnd as [Hnew Hnd]. cbn [Alphabet.dump].
    apply elem_of_cons in Hin as [->|Hin].
    + unfold Alphabet.dump_run, list_pop. rewrite Hempty. done.
    + destruct (dump_run_cases w r0) as [[w1 Hrun]|Hrun];
        rewrite Hrun; cbn [mbind res_bind]; [|done].
      apply (IH w1 r); [done..|].
      rewrite (dump_run_heap _ _ _ _ _ _ _ _ _ Hrun).
      rewrite list_lookup_total_insert_ne by (intros ->; done). done.
Qed.

End DumpOutcomes.

Lemma dump_cases (BRIGHT MAGENTA GREEN YELLOW RESET_ALL : string)
    (self : Alphabet.t) (runs : list nat) (w : world) :
  (exists w', Alphabet.dump BRIGHT MAGENTA GREEN YELLOW RESET_ALL self w runs
              = Ok w')
  \/ Alphabet.dump BRIGHT MAGENTA GREEN YELLOW RESET_ALL self w runs
     = Raise IndexError.
Proof.
  revert w. induction runs as [|r runs IH]; intros w; cbn [Alphabet.dump].
  - left. by exists w.
  - destruct (dump_run_cases BRIGHT MAGENTA GREEN YELLOW RESET_ALL self w r)
      as [[w1 Hrun]|Hrun]; rewrite Hrun; cbn [mbind res_bind]; [|by right].
    apply IH.
Qed.

(** What [main_dump] leaves behind when it succeeds. *)
Lemma main_dump_inv (BRIGHT MAGENTA GREEN YELLOW RESET_ALL : string)
    (alphabet : Alphabet.t) (base : Z)
    (grouped_runs : list (nat * list ref)) (w' : world) :
  main_dump BRIGHT MAGENTA GREEN YELLOW RESET_ALL alphabet base
    = Ok (grouped_runs, w') ->
  exists runs,
    modulo_fibonacci base = Ok runs
    /\ concat (grouped_runs.*2) ≡ₚ seq 0 (length runs)
    /\ heap w' = @removelast Z <$> runs.
Proof.
  unfold main_dump.
  destruct (modulo_fibonacci base) as [runs| |]; cbn [mbind res_bind heap];
    [|done..].
  set (g := group_by_length (len_in runs) (seq 0 (length runs))).
  destruct (Alphabet.dump _ _ _ _ _ _ _ _) as [w1| |] eqn:Hdump; [|done..].
  intros [= <- <-]. exists runs. split; [done|].
  destruct (group_by_length_facts (len_in runs) (seq 0 (length runs)))
    as (_ & _ & _ & Hperm). fold g in Hperm. split; [done|].
  assert (Hnd : NoDup (concat g.*2)) by (rewrite Hperm; apply NoDup_seq).
  apply list_eq. intros r.
  rewrite (dump_heap _ _ _ _ _ _ _ _ _ Hdump Hnd r). simpl.
  rewrite list_lookup_fmap.
  destruct (decide (r ∈ concat g.*2)) as [Hin|Hnin]; [done|].
  assert (runs !! r = None) as ->; [|done].
  apply lookup_ge_None. destruct (Nat.le_gt_cases (length runs) r); [done|].
  destruct Hnin. rewrite Hperm. apply elem_of_seq. lia.
Qed.

(** X10: for a positive base and an alphabet with at least [base]
    symbols, grouping and displaying the orbits succeeds and prints
    exactly one line per orbit. *)
Theorem main_dump_succeeds (BRIGHT MAGENTA GREEN YELLOW RESET_ALL : string)
    (alphabet : Alphabet.t) (base : Z) :
  0 < base -> base <= Z.of_nat (length (Alphabet.symbols alphabet)) ->
  exists runs grouped_runs w',
    modulo_fibonacci base = Ok runs
    /\ main_dump BRIGHT MAGENTA GREEN YELLOW RESET_ALL alphabet base
       = Ok (grouped_runs, w')
    /\ length (stdout w') = length runs.
Proof.
  intros Hb Hsyms.
  destruct (iterations_spec base Hb) as (its & Hits & _ & Hruns).
  assert (Hmf : modulo_fibonacci base = Ok (its.*2))
    by (unfold modulo_fibonacci; by rewrite Hits).
  set (runs := its.*2) in *.
  unfold main_dump. rewrite Hmf. cbn [mbind res_bind heap].
  set (g := group_by_length (len_in runs) (seq 0 (length runs))).
  destruct (group_by_length_facts (len_in runs) (seq 0 (length runs)))
    as (_ & _ & _ & Hperm). fold g in Hperm.
  destruct (dump_ok BRIGHT MAGENTA GREEN YELLOW RESET_ALL alphabet
              (concat g.*2) {| heap := runs; stdout := [] |})
    as (w' & Hdump & Hout).
  - rewrite Hperm. apply NoDup_seq.
  - intros r Hr. rewrite Hperm in Hr. apply elem_of_seq in Hr. simpl.
    destruct (lookup_lt_is_Some_2 runs r ltac:(lia)) as [run Hrun].
    rewrite (list_lookup_total_correct _ _ _ Hrun).
    unfold runs in Hrun. rewrite list_lookup_fmap in Hrun.
    destruct (its !! r) as [it|] eqn:Hit; [|done].
    injection Hrun as <-.
    pose proof (Forall_lookup_1 _ _ _ _ Hruns Hit) as Hrunof.
    split.
    + destruct Hrunof as (_ & Hpos & _). intros E. rewrite E in Hpos.
      simpl in Hpos. lia.
    + eapply Forall_impl; [by apply (run_of_residues base)|].
      intros x Hx. unfold drawable. simpl in Hx. lia.
  - exists runs, g, w'. split; [done|]. rewrite Hdump. split; [done|].
    rewrite Hout. simpl. by rewrite Hperm, length_seq.
Qed.

Lemma main_dump_succeeds_witness :
  exists runs grouped_runs w',
    modulo_fibonacci 2 = Ok runs
    /\ main_dump Style_BRIGHT Fore_MAGENTA Fore_GREEN Fore_YELLOW
         Style_RESET_ALL alphabet2 2 = Ok (grouped_runs, w')
    /\ length (stdout w') = length runs.
Proof.
  apply (main_dump_succeeds Style_BRIGHT Fore_MAGENTA Fore_GREEN Fore_YELLOW
           Style_RESET_ALL alphabet2 2); [lia|simpl; lia].
Defined.

(** X11: [dump] can fail in one way only, with [IndexError]; and it does
    fail so whenever one of the runs it is given is empty, since it pops
    the last element of each run. *)
Theorem dump_failures (BRIGHT MAGENTA GREEN YELLOW RESET_ALL : string)
    (self : Alphabet.t) (w : world) (runs : list ref) :
  ((exists w', Alphabet.dump BRIGHT MAGENTA GREEN YELLOW RESET_ALL self w runs
               = Ok w')
   \/ Alphabet.dump BRIGHT MAGENTA GREEN YELLOW RESET_ALL self w runs
      = Raise IndexError)
  /\ (forall r, NoDup runs -> r ∈ runs -> heap w !!! r = [] ->
        Alphabet.dump BRIGHT MAGENTA GREEN YELLOW RESET_ALL self w runs
        = Raise IndexError).
Proof.
  split; [apply dump_cases|].
  intros r Hnd Hin Hempty. by apply (dump_empty _ _ _ _ _ _ _ _ r).
Qed.

Lemma dump_failures_witness :
  Alphabet.dump Style_BRIGHT Fore_MAGENTA Fore_GREEN Fore_YELLOW
    Style_RESET_ALL alphabet2 {| heap := [[1]; []]; stdout := [] |}
    [0; 1]%nat
  = Raise IndexError.
Proof.
  apply (proj2 (dump_failures Style_BRIGHT Fore_MAGENTA Fore_GREEN
                  Fore_YELLOW Style_RESET_ALL alphabet2
                  {| heap := [[1]; []]; stdout := [] |} [0; 1]%nat) 1%nat).
  - apply (bool_decide_unpack (NoDup [0; 1]%nat)). reflexivity.
  - apply list_elem_of_further, list_elem_of_here.
  - reflexivity.
Defined.

(** X12: the display consumes the orbits and cannot be repeated: after a
    successful [main_dump] for a positive base, dumping the same runs a
    second time raises [IndexError], because the orbit [[0]] has been
    emptied by the first pass. *)
Theorem dump_not_repeatable (BRIGHT MAGENTA GREEN YELLOW RESET_ALL : string)
    (alphabet : Alphabet.t) (base : Z)
    (grouped_runs : list (nat * list ref)) (w' : world) :
  0 < base ->
  main_dump BRIGHT MAGENTA GREEN YELLOW RESET_ALL alphabet base
    = Ok (grouped_runs, w') ->
  Alphabet.dump BRIGHT MAGENTA GREEN YELLOW RESET_ALL alphabet w'
    (concat (grouped_runs.*2))
  = Raise IndexError.
Proof.
  intros Hb Hmain.
  destruct (main_dump_inv _ _ _ _ _ _ _ _ _ Hmain) as (runs & Hmf & Hperm & Hheap).
  destruct (first_iteration base Hb) as [rest Hits].
  unfold modulo_fibonacci in Hmf. rewrite Hits in Hmf.
  injection Hmf as <-.
  apply (dump_empty _ _ _ _ _ _ _ _ 0%nat).
  - rewrite Hperm. apply NoDup_seq.
  - rewrite Hperm. apply elem_of_seq. simpl. lia.
  - rewrite Hheap. done.
Qed.

Lemma dump_not_repeatable_witness :
  exists grouped_runs w',
    main_dump Style_BRIGHT Fore_MAGENTA Fore_GREEN Fore_YELLOW
      Style_RESET_ALL alphabet2 2 = Ok (grouped_runs, w')
    /\ Alphabet.dump Style_BRIGHT Fore_MAGENTA Fore_GREEN Fore_YELLOW
         Style_RESET_ALL alphabet2 w' (concat (grouped_runs.*2))
       = Raise IndexError.
Proof.
  eexists _, _.
  assert (H : main_dump Style_BRIGHT Fore_MAGENTA Fore_GREEN Fore_YELLOW
                Style_RESET_ALL alphabet2 2
              = Ok ([(3%nat, [1%nat]); (1%nat, [0%nat])],
                    {| heap := [[]; [1; 1]];
                       stdout := [String.concat EmptyString
                                    [Style_BRIGHT; Fore_MAGENTA; "0"%string;
                                     Fore_GREEN; "1"%string; "1"%string;
                                     Style_RESET_ALL];
                                  String.concat EmptyString
                                    [Style_BRIGHT; Fore_MAGENTA; "0"%string;
                                     Fore_GREEN; Style_RESET_ALL]] |}))
    by (vm_compute; reflexivity).
  split; [exact H|].
  apply (dump_not_repeatable Style_BRIGHT Fore_MAGENTA Fore_GREEN Fore_YELLOW
           Style_RESET_ALL alphabet2 2 _ _ ltac:(lia) H).
Defined.

(** ** The scanner skips nothing *)

Lemma pulls_no_skip (sd L : Z) :
  0 < sd ->
  forall (stores : list (list Z)) it (c : Z),
    scanner_at L it c ->
    (it = VisitedMap.Fresh ->
       match stores with
       | [] => True
       | m :: _ => Z.of_nat (length m) = L
       end) ->
    no_skip sd c (pulls sd it stores) stores.
Proof.
  intros Hsd. induction stores as [|m later IH]; intros it c Hat Hfresh.
  - done.
  - pose proof (resume_spec sd L m it c Hsd Hat Hfresh) as Hres.
    cbn [pulls].
    destruct (VisitedMap.resume (VisitedMap.mk sd m) it) as [[p it'|]|e|];
      simpl in Hres; [|done..].
    destruct Hres as (Hp & Hle & Hbit & Hbefore & Hat').
    pose proof (scanner_at_nonneg _ _ _ Hat) as Hc.
    cbn [no_skip]. split; [done|].
    apply IH; [done|].
    intros ->. apply scanner_at_fresh in Hat'. lia.
Qed.

(** X13: a scanner pulled while the map changes between the pulls never
    passes over an unset pair: at each pull, every flat index between the
    previously yielded pair (or the start of the map) and the pair it
    yields now is set in the map as it is at that pull. *)
Theorem scan_skips_nothing (sd : Z) (stores : list (list Z)) :
  0 < sd -> no_skip sd 0 (pulls sd VisitedMap.Fresh stores) stores.
Proof.
  intros Hsd.
  apply (pulls_no_skip sd
           (match stores with [] => 0 | m :: _ => Z.of_nat (length m) end)
           Hsd stores VisitedMap.Fresh 0 (at_fresh _)).
  intros _. by destruct stores.
Qed.

Lemma scan_skips_nothing_witness :
  0 < 2 /\
  no_skip 2 0 (pulls 2 VisitedMap.Fresh [[1]; [3]; [15]]) [[1]; [3]; [15]].
Proof.
  split; [lia|]. apply (scan_skips_nothing 2 [[1]; [3]; [15]]). lia.
Defined.

(** ** Marking and scanning together *)

(** X14: marking and scanning agree: after any calls of [visit] on pairs
    in range, starting from a fresh map of positive side, a scan of the
    map yields exactly the pairs in range that have not been visited. *)
Theorem free_after_visits (base : Z) (ps : list (Z * Z)) :
  0 < base -> Forall (in_range base) ps ->
  exists outs vm fs,
    visits (VisitedMap.new base) ps = Ok (outs, vm)
    /\ free_pairs vm = Ok fs
    /\ (forall p, p ∈ fs <-> in_range base p /\ p ∉ ps).
Proof.
  intros Hb Hps.
  destruct (visits_spec base Hb ps (VisitedMap.new base) [] []
              (new_inv base Hb) (fun p => reflexivity _) Hps)
    as (vm & V & Hvisits & Hinv & HV).
  destruct (scan_all_spec base (Z.of_nat (length (VisitedMap.map vm)))
              (VisitedMap.map vm) Hb eq_refl
              (S (8 * length (VisitedMap.map vm))) VisitedMap.Fresh 0
              (at_fresh _))
    as (fs & Hfree & _ & _ & Hmem); [lia|].
  replace (VisitedMap.mk base (VisitedMap.map vm)) with vm in Hfree
    by (destruct vm; simpl; f_equal; apply Hinv).
  exists (seen_before [] ps), vm, fs. split; [done|]. split; [done|].
  intros p. rewrite Hmem. split.
  - intros (Hp & _ & Hunset). split; [done|]. intros Hin.
    apply HV, (inv_bits _ _ _ Hinv p Hp) in Hin. congruence.
  - intros [Hp Hout]. split; [done|].
    pose proof (flat_in_map base vm V p Hb Hinv Hp). split; [lia|].
    destruct (bit_at (VisitedMap.map vm) (flat base p)) eqn:Hbit; [|done].
    destruct Hout. apply HV, (inv_bits _ _ _ Hinv p Hp). done.
Qed.

Lemma free_after_visits_witness :
  exists outs vm fs,
    visits (VisitedMap.new 2) [(1, 0); (0, 0)] = Ok (outs, vm)
    /\ free_pairs vm = Ok fs
    /\ (forall p, p ∈ fs <-> in_range 2 p /\ p ∉ [(1, 0); (0, 0)]).
Proof.
  apply (free_after_visits 2 [(1, 0); (0, 0)]); [lia|].
  repeat constructor; simpl; lia.
Defined.

(** ** The statistics of [main] *)






